(** * Channel alignment (src/core/align.py): a shallow embedding

    [align_images] copies the three channel images, runs ORB on each of them,
    and for the green and the blue channel matches descriptors against the red
    channel, fits a partial affine transform and resamples the channel.

    The Python objects the function touches (numpy arrays and lists) live in
    a store addressed by location, so that copies, aliasing and in-place list
    updates are visible.  The OpenCV primitives are an interface ([CV2]); each
    call made through it is recorded in a ghost trace. *)

From stdpp Require Import base list strings pretty.
From Stdlib Require Import ZArith Lia.

Local Open Scope Z_scope.
Local Open Scope nat_scope.

(** ** Arrays *)

(** A two-dimensional numpy array: [shape = (rows, columns)], samples in
    row-major order. *)
Record ndarray := Ndarray { shape : nat * nat; data : list Z }.

(** [a.size] *)
Definition size (a : ndarray) : nat := fst (shape a) * snd (shape a).

Fixpoint chunks (n k : nat) (l : list Z) : list (list Z) :=
  match n with
  | O => []
  | S n' => take k l :: chunks n' k (drop k l)
  end.

(** The rows of an array, for descriptor matrices (one descriptor per row). *)
Definition rows (a : ndarray) : list (list Z) :=
  chunks (fst (shape a)) (snd (shape a)) (data a).

(** ** OpenCV interface *)

Record KeyPoint (F : Type) := { pt : F * F }.
Arguments pt {F} _.

Record DMatch := { queryIdx : nat; trainIdx : nat; distance : Z }.

Inductive NormType := NORM_L1 | NORM_HAMMING.

(** The four OpenCV entry points [align_images] calls, and the two carrier
    types the source never looks into: floating-point coordinates and the
    2x3 matrix of [estimateAffinePartial2D].  [estimateAffinePartial2D]
    returns [(M, inliers)]; the source binds the mask to [_], only [M] is
    kept here. *)
Class CV2 := {
  float : Type;
  affine : Type;
  np_float32 : float → float;
  ORB_detectAndCompute : nat → ndarray → list (KeyPoint float) * option ndarray;
  BFMatcher_match : NormType → bool → ndarray → ndarray → list DMatch;
  estimateAffinePartial2D :
    list (float * float) → list (float * float) → option affine;
  warpAffine : ndarray → affine → nat * nat → ndarray
}.

(** ** Store, exceptions, trace *)

Abbreviation loc := nat (only parsing).

Inductive obj :=
| ONdarray (a : ndarray)
| OList (l : list loc).

Inductive exc_type := AlignmentError | IndexError | TypeError.

(** A raised exception: its class and its single argument, the message. *)
Record exception := Raise { exc_class : exc_type; exc_msg : string }.

Inductive cv2_call `{CV2} :=
| CallDetect (img : ndarray)
| CallMatch (i : nat) (query train : ndarray) (res : list DMatch)
| CallEstimate (i : nat) (from to : list (float * float)) (res : option affine)
| CallWarp (i : nat) (src : ndarray) (M : affine) (dsize : nat * nat).

Record state `{CV2} := State { heap : list obj; calls : list cv2_call }.
Arguments State {_} _ _.

(** ** The monad of Python computations *)

Definition Py `{CV2} (A : Type) : Type := state → (exception + A) * state.

Section monad.
Context `{CV2}.

Definition ret {A} (a : A) : Py A := λ s, (inr a, s).

Definition bind {A B} (m : Py A) (k : A → Py B) : Py B :=
  λ s, match m s with
       | (inl e, s') => (inl e, s')
       | (inr a, s') => k a s'
       end.

Definition raise {A} (t : exc_type) (msg : string) : Py A :=
  λ s, (inl (Raise t msg), s).

Definition log (c : cv2_call) : Py unit :=
  λ s, (inr tt, State (heap s) (calls s ++ [c])).

Definition alloc (o : obj) : Py loc :=
  λ s, (inr (length (heap s)), State (heap s ++ [o]) (calls s)).

Definition read_array (l : loc) : Py ndarray :=
  λ s, match heap s !! l with
       | Some (ONdarray a) => (inr a, s)
       | _ => (inl (Raise TypeError "ndarray expected"), s)
       end.

Definition read_list (l : loc) : Py (list loc) :=
  λ s, match heap s !! l with
       | Some (OList xs) => (inr xs, s)
       | _ => (inl (Raise TypeError "list expected"), s)
       end.

(** [xs[i]] on a Python list value *)
Definition getitem {A} (xs : list A) (i : nat) : Py A :=
  match xs !! i with
  | Some x => ret x
  | None => raise IndexError "list index out of range"
  end.

(** [l[i] = v] on the list object at [l] *)
Definition setitem (l : loc) (i : nat) (v : loc) : Py unit :=
  bind (read_list l) (λ xs,
    if decide (i < length xs)
    then λ s, (inr tt, State (<[l := OList (<[i := v]> xs)]> (heap s)) (calls s))
    else raise IndexError "list assignment index out of range").

Fixpoint traverse {A B} (f : A → Py B) (xs : list A) : Py (list B) :=
  match xs with
  | [] => ret []
  | x :: xs' => bind (f x) (λ y, bind (traverse f xs') (λ ys, ret (y :: ys)))
  end.

Fixpoint for_ {A} (xs : list A) (f : A → Py unit) : Py unit :=
  match xs with
  | [] => ret tt
  | x :: xs' => bind (f x) (λ _, for_ xs' f)
  end.
End monad.

Notation "'let!' x ':=' m 'in' k" := (bind m (λ x, k))
  (at level 10, x name, m at level 100, k at level 200).
Notation "m '>>' k" := (bind m (λ _, k))
  (at level 100, k at level 200, right associativity).

(** ** align_images *)

Section align.
Context `{CV2}.

(** [img.copy()] *)
Definition ndarray_copy (img : loc) : Py loc :=
  let! a := read_array img in alloc (ONdarray a).

(** [orb.detectAndCompute(img, None)] with [orb = cv2.ORB_create(1000)] *)
Definition detectAndCompute (img : loc)
  : Py (list (KeyPoint float) * option ndarray) :=
  let! a := read_array img in
  log (CallDetect a) >>
  ret (ORB_detectAndCompute 1000 a).

Definition MIN_MATCHES : nat := 50.

Definition insufficient_msg (n : nat) : string :=
  "Insufficient matches (" +:+ pretty n +:+ "/" +:+ pretty MIN_MATCHES +:+ ")".

Definition estimate_failed_msg (i : nat) : string :=
  "Failed to estimate transformation for channel " +:+ pretty i.

(** The body of [for i in range(1, 3)]. *)
Definition align_channel
    (original_images aligned : loc)
    (keypoints : list (list (KeyPoint float)))
    (descriptors : list (option ndarray)) (i : nat) : Py unit :=
  let! d0 := getitem descriptors 0 in
  match d0 with
  | None => ret tt
  | Some des0 =>
    let! di := getitem descriptors i in
    match di with
    | None => ret tt
    | Some desi =>
      if (0 <? size des0) && (0 <? size desi) then (
        let matches := BFMatcher_match NORM_HAMMING true des0 desi in
        log (CallMatch i des0 desi matches) >>
        if decide (length matches < MIN_MATCHES) then
          raise AlignmentError (insufficient_msg (length matches))
        else (
          let! src_pts := traverse (λ m, let! kp0 := getitem keypoints 0 in
                                     let! k := getitem kp0 (queryIdx m) in
                                     ret (pt k)) matches in
          let src_pts := prod_map np_float32 np_float32 <$> src_pts in
          let! dst_pts := traverse (λ m, let! kpi := getitem keypoints i in
                                     let! k := getitem kpi (trainIdx m) in
                                     ret (pt k)) matches in
          let dst_pts := prod_map np_float32 np_float32 <$> dst_pts in
          let M := estimateAffinePartial2D dst_pts src_pts in
          log (CallEstimate i dst_pts src_pts M) >>
          match M with
          | None => raise AlignmentError (estimate_failed_msg i)
          | Some M =>
            let! imgs := read_list original_images in
            let! src := getitem imgs i in
            let! src := read_array src in
            let! imgs := read_list original_images in
            let! ref := getitem imgs 0 in
            let! ref := read_array ref in
            let dsize := (snd (shape ref), fst (shape ref)) in
            log (CallWarp i src M dsize) >>
            let! w := alloc (ONdarray (warpAffine src M dsize)) in
            setitem aligned i w
          end))
      else ret tt
    end
  end.

Definition align_images (original_images : loc) : Py loc :=
  let! imgs := read_list original_images in
  let! copies := traverse ndarray_copy imgs in
  let! aligned := alloc (OList copies) in
  let! imgs := read_list original_images in
  let! kd := traverse detectAndCompute imgs in
  let keypoints := kd.*1 in
  let descriptors := kd.*2 in
  for_ [1; 2] (align_channel original_images aligned keypoints descriptors) >>
  ret aligned.
End align.

(** ** Observing a run *)

Section observe.
Context `{CV2}.

Definition image_at (s : state) (l : loc) : option ndarray :=
  match heap s !! l with
  | Some (ONdarray a) => Some a
  | _ => None
  end.

(** The contents of the images held by the list at [l]. *)
Definition images_of (s : state) (l : loc) : option (list ndarray) :=
  match heap s !! l with
  | Some (OList xs) => mapM (image_at s) xs
  | _ => None
  end.

(** What a caller sees of a finished run: the exception, or the contents
    of the returned images. *)
Definition observe (r : (exception + loc) * state)
  : exception + option (list ndarray) :=
  match fst r with
  | inl e => inl e
  | inr out => inr (images_of (snd r) out)
  end.

(** The OpenCV calls made between [s] and [s']. *)
Definition new_calls (s s' : state) : list cv2_call :=
  drop (length (calls s)) (calls s').

(** The loop index at the call site; [None] for the detection loop. *)
Definition call_channel (c : cv2_call) : option nat :=
  match c with
  | CallDetect _ => None
  | CallMatch i _ _ _ | CallEstimate i _ _ _ | CallWarp i _ _ _ => Some i
  end.

(** The guard of lines 54-55, per image: ORB gave no descriptor array, or
    an empty one. *)
Definition no_descriptors (img : ndarray) : bool :=
  match snd (ORB_detectAndCompute 1000 img) with
  | None => true
  | Some des => negb (0 <? size des)
  end.

(** ** Summary of one loop iteration

    What [align_channel] does for channel [i] with image [X] against the
    reference [R], as a value: the verdict and the calls it makes. *)
Inductive verdict :=
| Skipped
| Resampled (a : ndarray)
| Failed (e : exception).

Definition matched_points (kps : list (KeyPoint float))
    (idx : DMatch → nat) (ms : list DMatch) : option (list (float * float)) :=
  fmap (prod_map np_float32 np_float32)
    <$> mapM (λ m, pt <$> kps !! idx m) ms.

Definition channel_verdict (R X : ndarray) (i : nat)
  : verdict * list cv2_call :=
  match snd (ORB_detectAndCompute 1000 R), snd (ORB_detectAndCompute 1000 X) with
  | Some des0, Some desi =>
    if (0 <? size des0) && (0 <? size desi) then
      let ms := BFMatcher_match NORM_HAMMING true des0 desi in
      let cm := CallMatch i des0 desi ms in
      if decide (length ms < MIN_MATCHES) then
        (Failed (Raise AlignmentError (insufficient_msg (length ms))), [cm])
      else
        match matched_points (fst (ORB_detectAndCompute 1000 R)) queryIdx ms,
              matched_points (fst (ORB_detectAndCompute 1000 X)) trainIdx ms with
        | Some src, Some dst =>
          let ce := CallEstimate i dst src (estimateAffinePartial2D dst src) in
          match estimateAffinePartial2D dst src with
          | None =>
            (Failed (Raise AlignmentError (estimate_failed_msg i)), [cm; ce])
          | Some M =>
            let dsize := (snd (shape R), fst (shape R)) in
            (Resampled (warpAffine X M dsize), [cm; ce; CallWarp i X M dsize])
          end
        | _, _ => (Failed (Raise IndexError "list index out of range"), [cm])
        end
    else (Skipped, [])
  | _, _ => (Skipped, [])
  end.

(** The objects a run on [R], [G], [B] adds to a store of [n] objects:
    the three copies, the list [aligned], then the resampled images. *)
Definition is_resampled (v : verdict) : bool :=
  match v with Resampled _ => true | _ => false end.

Definition resampled_obj (v : verdict) : list obj :=
  match v with Resampled a => [ONdarray a] | _ => [] end.

Definition new_objs (n : nat) (R G B : ndarray) (v1 v2 : verdict) : list obj :=
  [ONdarray R; ONdarray G; ONdarray B;
   OList [n;
          if is_resampled v1 then n + 4 else n + 1;
          if is_resampled v2
          then (if is_resampled v1 then n + 5 else n + 4)
          else n + 2]]
  ++ resampled_obj v1 ++ resampled_obj v2.

(** The image a caller finds in a channel's slot after a successful run. *)
Definition result_image (X : ndarray) (v : verdict) : ndarray :=
  match v with Resampled a => a | _ => X end.

(** The whole run on a store in which the input list holds three images
    with contents [R], [G], [B]. *)
Definition run_summary (s : state) (R G B : ndarray)
  : (exception + loc) * state :=
  let n := length (heap s) in
  let c0 := calls s ++ [CallDetect R; CallDetect G; CallDetect B] in
  let v1 := channel_verdict R G 1 in
  let v2 := channel_verdict R B 2 in
  match fst v1 with
  | Failed e =>
      (inl e, State (heap s ++ new_objs n R G B Skipped Skipped) (c0 ++ snd v1))
  | _ =>
      match fst v2 with
      | Failed e =>
          (inl e, State (heap s ++ new_objs n R G B (fst v1) Skipped)
                        ((c0 ++ snd v1) ++ snd v2))
      | _ =>
          (inr (n + 3), State (heap s ++ new_objs n R G B (fst v1) (fst v2))
                              ((c0 ++ snd v1) ++ snd v2))
      end
  end.

(** The five ways an iteration can go. *)
Definition matched (R X q t : ndarray) (ms : list DMatch) : Prop :=
  snd (ORB_detectAndCompute 1000 R) = Some q ∧
  snd (ORB_detectAndCompute 1000 X) = Some t ∧
  no_descriptors R || no_descriptors X = false ∧
  ms = BFMatcher_match NORM_HAMMING true q t.

Definition fitted (R X : ndarray) (ms : list DMatch)
    (from to : list (float * float)) : Prop :=
  MIN_MATCHES ≤ length ms ∧
  matched_points (fst (ORB_detectAndCompute 1000 X)) trainIdx ms = Some from ∧
  matched_points (fst (ORB_detectAndCompute 1000 R)) queryIdx ms = Some to.

Inductive channel_spec (R X : ndarray) (i : nat)
  : verdict → list cv2_call → Prop :=
| spec_skipped :
    no_descriptors R || no_descriptors X = true →
    channel_spec R X i Skipped []
| spec_insufficient q t ms :
    matched R X q t ms → length ms < MIN_MATCHES →
    channel_spec R X i
      (Failed (Raise AlignmentError (insufficient_msg (length ms))))
      [CallMatch i q t ms]
| spec_bad_index q t ms :
    matched R X q t ms → MIN_MATCHES ≤ length ms →
    channel_spec R X i
      (Failed (Raise IndexError "list index out of range"))
      [CallMatch i q t ms]
| spec_no_transform q t ms from to :
    matched R X q t ms → fitted R X ms from to →
    estimateAffinePartial2D from to = None →
    channel_spec R X i
      (Failed (Raise AlignmentError (estimate_failed_msg i)))
      [CallMatch i q t ms; CallEstimate i from to None]
| spec_resampled q t ms from to M :
    matched R X q t ms → fitted R X ms from to →
    estimateAffinePartial2D from to = Some M →
    channel_spec R X i
      (Resampled (warpAffine X M (snd (shape R), fst (shape R))))
      [CallMatch i q t ms; CallEstimate i from to (Some M);
       CallWarp i X M (snd (shape R), fst (shape R))].

Definition is_failed (v : verdict) : bool :=
  match v with Failed _ => true | _ => false end.

(** The three ways a run on a triple can end: the green channel fails,
    the blue channel fails, or the list [aligned] is returned. *)
Inductive run_spec (s : state) (R G B : ndarray)
  : (exception + loc) * state → Prop :=
| run_failed_green e c1 :
    channel_spec R G 1 (Failed e) c1 →
    run_spec s R G B
      (inl e,
       State (heap s ++ new_objs (length (heap s)) R G B Skipped Skipped)
             (calls s ++ [CallDetect R; CallDetect G; CallDetect B] ++ c1))
| run_failed_blue v1 c1 e c2 :
    channel_spec R G 1 v1 c1 → is_failed v1 = false →
    channel_spec R B 2 (Failed e) c2 →
    run_spec s R G B
      (inl e,
       State (heap s ++ new_objs (length (heap s)) R G B v1 Skipped)
             (calls s ++ [CallDetect R; CallDetect G; CallDetect B] ++ c1 ++ c2))
| run_returned v1 c1 v2 c2 :
    channel_spec R G 1 v1 c1 → is_failed v1 = false →
    channel_spec R B 2 v2 c2 → is_failed v2 = false →
    run_spec s R G B
      (inr (length (heap s) + 3),
       State (heap s ++ new_objs (length (heap s)) R G B v1 v2)
             (calls s ++ [CallDetect R; CallDetect G; CallDetect B] ++ c1 ++ c2)).
End observe.

(** ** Properties of a run *)

Section properties.
Context `{CV2}.

(** Slot [i] of the result holds [X'], the image [X] resampled by a
    [warpAffine] call of the run. *)
Definition resampled_from (s s' : state) (i : nat) (X X' : ndarray) : Prop :=
  ∃ M dsize,
    CallWarp i X M dsize ∈ new_calls s s' ∧ X' = warpAffine X M dsize.

(** What slot [i] holds after a run that returned: a copy of [X] when ORB
    gave no descriptors for the reference or for [X], in which case no
    call was made for the channel; [X] resampled to the reference's size
    otherwise. *)
Definition channel_result (s s' : state) (R : ndarray) (i : nat)
    (X X' : ndarray) : Prop :=
  if no_descriptors R || no_descriptors X
  then X' = X ∧ ∀ c, c ∈ new_calls s s' → call_channel c ≠ Some i
  else ∃ M, CallWarp i X M (snd (shape R), fst (shape R)) ∈ new_calls s s' ∧
            X' = warpAffine X M (snd (shape R), fst (shape R)).

(** No partial alignment: whenever the run returns, both non-reference
    channels have been resampled. *)
Definition all_or_nothing (s : state) (l : loc) : Prop :=
  ∀ R G B out s',
    images_of s l = Some [R; G; B] → align_images l s = (inr out, s') →
    ∃ R' G' B', images_of s' out = Some [R'; G'; B'] ∧
      resampled_from s s' 1 G G' ∧ resampled_from s s' 2 B B'.

(** Dimension invariant: whenever the run returns, the three images have
    the shape of the reference. *)
Definition same_dimensions (s : state) (l : loc) : Prop :=
  ∀ R G B out s',
    images_of s l = Some [R; G; B] → align_images l s = (inr out, s') →
    ∃ R' G' B', images_of s' out = Some [R'; G'; B'] ∧
      shape R' = shape R ∧ shape G' = shape R ∧ shape B' = shape R.

(** The two kinds of failure, told by the last OpenCV call of the run. *)
Definition insufficient_failure (l : loc) (s : state) (e : exception) : Prop :=
  ∃ s' i q t ms,
    align_images l s = (inl e, s') ∧
    last (calls s') = Some (CallMatch i q t ms) ∧ length ms < MIN_MATCHES.

Definition estimation_failure (l : loc) (s : state) (e : exception) : Prop :=
  ∃ s' i from to,
    align_images l s = (inl e, s') ∧
    last (calls s') = Some (CallEstimate i from to None).

(** Typed failure signal: the exception class alone separates the kinds. *)
Definition typed_failures : Prop :=
  ∀ l1 s1 e1 l2 s2 e2,
    insufficient_failure l1 s1 e1 → estimation_failure l2 s2 e2 →
    exc_class e1 ≠ exc_class e2.
End properties.

(** ** Brute-force matching *)

Fixpoint popcount_pos (p : positive) : Z :=
  match p with
  | xH => 1
  | xO p' => popcount_pos p'
  | xI p' => 1 + popcount_pos p'
  end%Z.

Definition popcount (z : Z) : Z :=
  match z with
  | Zpos p => popcount_pos p
  | _ => 0%Z
  end.

(** Distance between two descriptors (rows of bytes) under a norm. *)
Fixpoint norm_dist (norm : NormType) (x y : list Z) : Z :=
  match x, y with
  | a :: x', b :: y' =>
      (match norm with
       | NORM_L1 => Z.abs (a - b)
       | NORM_HAMMING => popcount (Z.lxor a b)
       end + norm_dist norm x' y')%Z
  | _, _ => 0%Z
  end.

(** Index and distance of the descriptor of [ys] nearest to [x]; [j] is the
    index of the head of [ys].  Among equally near descriptors the first
    one wins. *)
Fixpoint nearest (norm : NormType) (x : list Z) (ys : list (list Z)) (j : nat)
  : option (nat * Z) :=
  match ys with
  | [] => None
  | y :: ys' =>
      let d := norm_dist norm x y in
      match nearest norm x ys' (S j) with
      | Some (j', d') => if (d' <? d)%Z then Some (j', d') else Some (j, d)
      | None => Some (j, d)
      end
  end.

(** The match of the [i]-th query descriptor [x], if it has one. *)
Definition match_one (norm : NormType) (crossCheck : bool)
    (qs ts : list (list Z)) (i : nat) (x : list Z) : option DMatch :=
  match nearest norm x ts 0 with
  | None => None
  | Some (j, d) =>
      if crossCheck then
        match ts !! j with
        | None => None
        | Some y =>
            match nearest norm y qs 0 with
            | Some (i', _) =>
                if decide (i' = i)
                then Some {| queryIdx := i; trainIdx := j; distance := d |}
                else None
            | None => None
            end
        end
      else Some {| queryIdx := i; trainIdx := j; distance := d |}
  end.

(** Modelled from the spec: [cv2.BFMatcher(norm, crossCheck).match] is
    OpenCV code, no part of the sources; section 4.2 of the specification
    describes it as nearest-descriptor matching under the norm, kept only
    when mutual if [crossCheck] is set, with no bound on the distance. *)
Definition bf_match (norm : NormType) (crossCheck : bool)
    (query train : ndarray) : list DMatch :=
  omap id (imap (match_one norm crossCheck (rows query) (rows train)) (rows query)).

(** [j] is the best match in [ys] for [x]: no element of [ys] is nearer, and
    no equally near one comes earlier. *)
Definition best_match (norm : NormType) (x : list Z) (ys : list (list Z))
    (j : nat) : Prop :=
  ∃ y, ys !! j = Some y ∧
    ∀ j' y', ys !! j' = Some y' →
      (norm_dist norm x y < norm_dist norm x y')%Z ∨
      (norm_dist norm x y = norm_dist norm x y' ∧ j ≤ j').

(** ** A small instance of the interface

    Coordinates are integers and a transform is a translation.  Every
    non-zero sample is a key point whose one-byte descriptor is the sample;
    an image without one has no descriptor array ([None], as ORB answers for
    a featureless image).  No transform is found for points that all lie on
    one row. *)
Module Pixel.

Definition keypoints_of (img : ndarray) : list (KeyPoint Z * Z) :=
  omap id (imap (λ k v,
    if decide (v = 0%Z) then None
    else Some ({| pt := (Z.of_nat (k mod snd (shape img)),
                         Z.of_nat (k / snd (shape img))) |}, v))
    (data img)).

Definition detect (nfeatures : nat) (img : ndarray)
  : list (KeyPoint Z) * option ndarray :=
  let kps := take nfeatures (keypoints_of img) in
  (kps.*1,
   match kps with
   | [] => None
   | _ => Some (Ndarray (length kps, 1) kps.*2)
   end).

Definition estimate (from to : list (Z * Z)) : option (Z * Z) :=
  match from, to with
  | (fx, fy) :: _, (tx, ty) :: _ =>
      if forallb (λ p, (snd p =? fy)%Z) from then None
      else Some (tx - fx, ty - fy)%Z
  | _, _ => None
  end.

Definition sample (src : ndarray) (x y : Z) : Z :=
  if decide (0 ≤ x < Z.of_nat (snd (shape src)) ∧
             0 ≤ y < Z.of_nat (fst (shape src)))%Z
  then default 0%Z (data src !! Z.to_nat (y * Z.of_nat (snd (shape src)) + x))
  else 0%Z.

Definition warp (src : ndarray) (M : Z * Z) (dsize : nat * nat) : ndarray :=
  let '(w, h) := dsize in
  Ndarray (h, w)
    (flat_map (λ y, (λ x, sample src (Z.of_nat x - fst M) (Z.of_nat y - snd M))
                      <$> seq 0 w) (seq 0 h)).

Definition cv2 : CV2 := {|
  float := Z;
  affine := Z * Z;
  np_float32 := id;
  ORB_detectAndCompute := detect;
  BFMatcher_match := bf_match;
  estimateAffinePartial2D := estimate;
  warpAffine := warp
|}.

(** Sample images. *)
Definition ramp (h w : nat) : ndarray :=
  Ndarray (h, w) (Z.of_nat <$> seq 1 (h * w)).
Definition blank (h w : nat) : ndarray :=
  Ndarray (h, w) (replicate (h * w) 0%Z).

(** A store holding the list [[0; 1; 2]] at location 3. *)
Definition store (r g b : ndarray) : @state cv2 :=
  State [ONdarray r; ONdarray g; ONdarray b; OList [0; 1; 2]] [].

Definition run (r g b : ndarray) := @align_images cv2 3 (store r g b).
Definition after (r g b : ndarray) := snd (run r g b).

(** Fifty key points on five rows; no key point; ten key points; fifty
    key points on a single row. *)
Definition textured : ndarray := ramp 5 10.
Definition featureless : ndarray := blank 2 3.
Definition sparse : ndarray := ramp 2 5.
Definition line : ndarray := ramp 1 50.

(** The descriptor array and the key point coordinates of an image. *)
Definition descriptors (img : ndarray) : ndarray :=
  default img (snd (detect 1000 img)).
Definition points (img : ndarray) : list (Z * Z) :=
  pt <$> fst (detect 1000 img).

(** The same three images as [store textured sparse textured], held by a
    list at location 0 whose first and last entries are one object. *)
Definition shared : @state cv2 :=
  State [OList [2; 1; 2]; ONdarray sparse; ONdarray textured] [].
End Pixel.


(** ** Further notions about a run *)

Section outcomes.
Context `{CV2}.


End outcomes.

(** * Keyboard shortcuts (src/handlers/keyboard.py) *)

Module Keyboard.

(** [Qt.Key_1], [Qt.Key_2], [Qt.Key_3], [Qt.Key_A] *)
Definition Key_1 : Z := 0x31.
Definition Key_2 : Z := 0x32.
Definition Key_3 : Z := 0x33.
Definition Key_A : Z := 0x41.

(** The two attributes of the main window the handler writes. *)
Record MainWindow := { show_combined : bool; current_channel : Z }.

Record QKeyEvent := { key : Z; accepted : bool }.

(** The window, the event, and the windows [update_main_display] has been
    called on, latest last. *)
Record ui := UI {
  main_window : MainWindow;
  event : QKeyEvent;
  refreshed : list MainWindow
}.

Section handler.
(** [handlers.display.update_main_display] is not among the sources: it is
    taken as any function on the window. *)
Variable update_main_display : MainWindow → MainWindow.

Definition refresh (u : ui) : ui :=
  UI (update_main_display (main_window u)) (event u)
     (refreshed u ++ [main_window u]).

Definition accept (u : ui) : ui :=
  UI (main_window u) {| key := key (event u); accepted := true |} (refreshed u).

Definition set_window (w : MainWindow) (u : ui) : ui :=
  UI w (event u) (refreshed u).

Definition handle_key_press (u : ui) : bool * ui :=
  let w := main_window u in
  if (key (event u) =? Key_1)%Z then
    (true, accept (refresh (set_window
       {| show_combined := false; current_channel := 0 |} u)))
  else if (key (event u) =? Key_2)%Z then
    (true, accept (refresh (set_window
       {| show_combined := false; current_channel := 1 |} u)))
  else if (key (event u) =? Key_3)%Z then
    (true, accept (refresh (set_window
       {| show_combined := false; current_channel := 2 |} u)))
  else if (key (event u) =? Key_A)%Z then
    (true, accept (refresh (set_window
       {| show_combined := true; current_channel := current_channel w |} u)))
  else (false, u).
End handler.
End Keyboard.

(** * The crop rectangle (src/widgets/image_viewer.py) *)

Module Viewer.

(** A [QRect]: Qt keeps the two corners, so that [right = left + width - 1]
    and [bottom = top + height - 1].  Coordinates are integers; the 32-bit
    range of Qt's [int] is not modelled. *)
Record QRect := { x1 : Z; y1 : Z; x2 : Z; y2 : Z }.

(** [QRect(x, y, w, h)] *)
Definition QRect_xywh (x y w h : Z) : QRect :=
  {| x1 := x; y1 := y; x2 := x + w - 1; y2 := y + h - 1 |}%Z.

Definition QRect_left (r : QRect) : Z := x1 r.
Definition QRect_top (r : QRect) : Z := y1 r.
Definition QRect_width (r : QRect) : Z := (x2 r - x1 r + 1)%Z.
Definition QRect_height (r : QRect) : Z := (y2 r - y1 r + 1)%Z.
Definition QRect_isValid (r : QRect) : bool :=
  (x1 r <=? x2 r)%Z && (y1 r <=? y2 r)%Z.

(** The truth value of [self._crop_rect] and its like: [None] is false, and
    PyQt gives a [QRect] the truth value of [isValid()]. *)
Definition truth (r : option QRect) : bool :=
  match r with
  | Some r => QRect_isValid r
  | None => false
  end.

Inductive CursorShape := ArrowCursor | ClosedHandCursor | SizeAllCursor.

(** What the crop functions read from Qt and compute in floating point:
    the truth value of [self.photo], the truth value and the size of
    [self.photo.pixmap()], the sides of
    [self.photo.boundingRect()] after [int()], [int(n * 0.8)], and the
    rectangle that lines 414-446 fit to a ratio. *)
Class Photo := {
  photo_truth : bool;
  pixmap_truth : bool;
  pixmap_width : Z;
  pixmap_height : Z;
  min_x : Z;
  max_x : Z;
  min_y : Z;
  max_y : Z;
  int_mul_08 : Z → Z;
  fit_to_ratio : Z * Z → QRect → QRect
}.

(** The crop state of an [ImageViewer], its cursor and the number of
    [viewport().update()] calls. *)
Record ImageViewer := Build_viewer {
  _crop_mode : bool;
  _crop_rect : option QRect;
  _saved_crop_rect : option QRect;
  _crop_ratio : option (Z * Z);
  cursor : CursorShape;
  updates : nat
}.

Definition with_rect (r : option QRect) (v : ImageViewer) : ImageViewer :=
  Build_viewer (_crop_mode v) r (_saved_crop_rect v) (_crop_ratio v)
    (cursor v) (updates v).
Definition with_saved (r : option QRect) (v : ImageViewer) : ImageViewer :=
  Build_viewer (_crop_mode v) (_crop_rect v) r (_crop_ratio v)
    (cursor v) (updates v).
Definition with_mode (b : bool) (v : ImageViewer) : ImageViewer :=
  Build_viewer b (_crop_rect v) (_saved_crop_rect v) (_crop_ratio v)
    (cursor v) (updates v).
Definition with_ratio (q : option (Z * Z)) (v : ImageViewer) : ImageViewer :=
  Build_viewer (_crop_mode v) (_crop_rect v) (_saved_crop_rect v) q
    (cursor v) (updates v).
Definition setCursor (k : CursorShape) (v : ImageViewer) : ImageViewer :=
  Build_viewer (_crop_mode v) (_crop_rect v) (_saved_crop_rect v)
    (_crop_ratio v) k (updates v).
Definition viewport_update (v : ImageViewer) : ImageViewer :=
  Build_viewer (_crop_mode v) (_crop_rect v) (_saved_crop_rect v)
    (_crop_ratio v) (cursor v) (S (updates v)).

Section crop.
Context `{Photo}.

Definition adjust_crop_rect_to_ratio (v : ImageViewer) : ImageViewer :=
  match _crop_ratio v, _crop_rect v with
  | Some ratio, Some rect =>
      if QRect_isValid rect
      then viewport_update (with_rect (Some (fit_to_ratio ratio rect)) v)
      else v
  | _, _ => v
  end.

Definition set_crop_mode (enabled : bool) (v : ImageViewer) : ImageViewer :=
  let v := with_mode enabled v in
  let v :=
    if enabled then
      let v :=
        if pixmap_truth then
          let v :=
            if truth (_saved_crop_rect v)
            then with_rect (_saved_crop_rect v) v
            else
              let img_width := pixmap_width in
              let img_height := pixmap_height in
              let rect_width := int_mul_08 img_width in
              let rect_height := int_mul_08 img_height in
              let x := ((img_width - rect_width) / 2)%Z in
              let y := ((img_height - rect_height) / 2)%Z in
              with_rect (Some (QRect_xywh x y rect_width rect_height)) v in
          match _crop_ratio v with
          | Some _ => adjust_crop_rect_to_ratio v
          | None => v
          end
        else v in
      setCursor ArrowCursor v
    else setCursor ArrowCursor (with_rect None v) in
  viewport_update v.

Definition confirm_crop (v : ImageViewer) : ImageViewer :=
  let v := if truth (_crop_rect v) then with_saved (_crop_rect v) v else v in
  set_crop_mode false v.

Definition cancel_crop (v : ImageViewer) : ImageViewer :=
  set_crop_mode false (with_rect None v).

Definition set_crop_rect (rect : option QRect) (v : ImageViewer) : ImageViewer :=
  viewport_update (with_rect rect v).

Definition set_crop_ratio (ratio : option (Z * Z)) (v : ImageViewer)
  : ImageViewer :=
  if negb (truth (_crop_rect v)) then with_ratio ratio v
  else adjust_crop_rect_to_ratio (with_ratio ratio v).

Definition constrain_crop_rect (v : ImageViewer) : ImageViewer :=
  match _crop_rect v with
  | Some rect =>
      if QRect_isValid rect && photo_truth then
        let original_width := QRect_width rect in
        let original_height := QRect_height rect in
        let new_rect :=
          QRect_xywh
            (Z.max min_x (Z.min (max_x - original_width) (QRect_left rect)))
            (Z.max min_y (Z.min (max_y - original_height) (QRect_top rect)))
            original_width original_height in
        let v := with_rect (Some new_rect) v in
        match _crop_ratio v with
        | Some _ => adjust_crop_rect_to_ratio v
        | None => v
        end
      else v
  | None => v
  end.
End crop.

(** A 100 by 80 pixmap. *)
Definition photo : Photo := {|
  photo_truth := true;
  pixmap_truth := true;
  pixmap_width := 100;
  pixmap_height := 80;
  min_x := 0; max_x := 100; min_y := 0; max_y := 80;
  int_mul_08 := λ n, (4 * n / 5)%Z;
  fit_to_ratio := λ _ r, r
|}.

Definition fresh_viewer : ImageViewer :=
  Build_viewer false None None None ArrowCursor 0.

(** A viewer in crop mode whose 30 by 20 crop rectangle has been dragged
    over the right and the top border of the image. *)
Definition dragged : ImageViewer :=
  Build_viewer true (Some (QRect_xywh 90 (-5) 30 20)) None None
    SizeAllCursor 3.
End Viewer.

(** * Sample lists of other lengths *)

Module Lists.
Import Pixel.

(** Stores holding, at their last location, the empty list, a list of one
    image, a list of two images whose first has no key point, a list of
    four images, and a list that holds one array three times. *)
Definition none : @state cv2 := State [OList []] [].
Definition four : @state cv2 :=
  State [ONdarray textured; ONdarray featureless; ONdarray textured;
         ONdarray sparse; OList [0; 1; 2; 3]] [].
Definition thrice : @state cv2 := State [ONdarray textured; OList [0; 0; 0]] [].
End Lists.

(** * Running the monad *)

Section run.
Context `{CV2}.
Implicit Types (h new : list obj) (c : list cv2_call) (s : state).

Lemma bind_assoc {A B C} (m : Py A) (f : A → Py B) (g : B → Py C) s :
  bind (bind m f) g s = bind m (λ x, bind (f x) g) s.
Proof. unfold bind. destruct (m s) as [[e|a] s']; reflexivity. Qed.

Lemma bind_ret {A B} (a : A) (k : A → Py B) s : bind (ret a) k s = k a s.
Proof. reflexivity. Qed.

Lemma bind_log {B} e (k : unit → Py B) h c :
  bind (log e) k (State h c) = k tt (State h (c ++ [e])).
Proof. reflexivity. Qed.

Lemma bind_alloc {B} o (k : loc → Py B) h new c :
  bind (alloc o) k (State (h ++ new) c)
  = k (length h + length new) (State (h ++ (new ++ [o])) c).
Proof. unfold bind, alloc; cbn. by rewrite length_app, (assoc_L (++)). Qed.

Lemma bind_read_array {B} l a (k : ndarray → Py B) h new c :
  h !! l = Some (ONdarray a) →
  bind (read_array l) k (State (h ++ new) c) = k a (State (h ++ new) c).
Proof.
  intros Hl. unfold bind, read_array; cbn.
  by rewrite (lookup_app_l_Some _ _ _ _ Hl).
Qed.

Lemma bind_read_list {B} l xs (k : list loc → Py B) h new c :
  h !! l = Some (OList xs) →
  bind (read_list l) k (State (h ++ new) c) = k xs (State (h ++ new) c).
Proof.
  intros Hl. unfold bind, read_list; cbn.
  by rewrite (lookup_app_l_Some _ _ _ _ Hl).
Qed.

Lemma bind_getitem {A B} (xs : list A) i x (k : A → Py B) s :
  xs !! i = Some x → bind (getitem xs i) k s = k x s.
Proof. intros Hx. unfold getitem. by rewrite Hx. Qed.

Lemma setitem_run j i v xs h new c :
  new !! j = Some (OList xs) → i < length xs →
  setitem (length h + j) i v (State (h ++ new) c)
  = (inr tt, State (h ++ <[j := OList (<[i := v]> xs)]> new) c).
Proof.
  intros Hj Hi. unfold setitem, bind at 1, read_list; cbn.
  rewrite lookup_app_r by lia.
  replace (length h + j - length h) with j by lia. rewrite Hj.
  rewrite decide_True by done. cbn. by rewrite insert_app_r.
Qed.

(** Reading the matched points out of a key point list never touches the
    state; it fails with IndexError on an index outside the list. *)
Lemma traverse_points {B} (kps : list (list (KeyPoint float))) j kp
    (idx : DMatch → nat) ms (k : list (float * float) → Py B) s :
  kps !! j = Some kp →
  bind (traverse (λ m, let! kpj := getitem kps j in
                       let! p := getitem kpj (idx m) in
                       ret (pt p)) ms) k s
  = match mapM (λ m, pt <$> kp !! idx m) ms with
    | Some pts => k pts s
    | None => (inl (Raise IndexError "list index out of range"), s)
    end.
Proof.
  intros Hj. revert k. induction ms as [|m ms IH]; intros k; [done|].
  cbn [traverse mapM]. rewrite !bind_assoc; cbv beta.
  rewrite (bind_getitem _ _ _ _ _ Hj).
  unfold getitem at 1. destruct (kp !! idx m) as [p|]; [|done].
  rewrite bind_assoc, !bind_ret, bind_assoc, IH. cbn.
  by destruct (mapM _ ms).
Qed.

(** One iteration of the loop, on a store [h ++ new] whose old part [h]
    holds the input list and images and whose new part holds [aligned]. *)
Lemma align_channel_run l r0 x rs ka xs i R X kds h new c :
  h !! l = Some (OList rs) →
  rs !! 0 = Some r0 → h !! r0 = Some (ONdarray R) →
  rs !! i = Some x → h !! x = Some (ONdarray X) →
  kds !! 0 = Some (ORB_detectAndCompute 1000 R) →
  kds !! i = Some (ORB_detectAndCompute 1000 X) →
  new !! ka = Some (OList xs) → i < length xs →
  align_channel l (length h + ka) kds.*1 kds.*2 i (State (h ++ new) c)
  = match channel_verdict R X i with
    | (Skipped, cs) => (inr tt, State (h ++ new) (c ++ cs))
    | (Failed e, cs) => (inl e, State (h ++ new) (c ++ cs))
    | (Resampled a, cs) =>
        (inr tt,
         State (h ++ <[ka := OList (<[i := length h + length new]> xs)]>
                       (new ++ [ONdarray a])) (c ++ cs))
    end.
Proof.
  intros Hl Hr0 HR Hx HX Hk0 Hki Hka Hi.
  assert (kds.*2 !! 0 = Some (snd (ORB_detectAndCompute 1000 R))) as Hd0
    by (by rewrite list_lookup_fmap, Hk0).
  assert (kds.*2 !! i = Some (snd (ORB_detectAndCompute 1000 X))) as Hdi
    by (by rewrite list_lookup_fmap, Hki).
  assert (kds.*1 !! 0 = Some (fst (ORB_detectAndCompute 1000 R))) as Hp0
    by (by rewrite list_lookup_fmap, Hk0).
  assert (kds.*1 !! i = Some (fst (ORB_detectAndCompute 1000 X))) as Hpi
    by (by rewrite list_lookup_fmap, Hki).
  unfold align_channel, channel_verdict.
  rewrite (bind_getitem _ _ _ _ _ Hd0).
  destruct (snd (ORB_detectAndCompute 1000 R)) as [des0|];
    [|by cbn; rewrite (right_id_L [] (++))].
  rewrite (bind_getitem _ _ _ _ _ Hdi).
  destruct (snd (ORB_detectAndCompute 1000 X)) as [desi|];
    [|by cbn; rewrite (right_id_L [] (++))].
  destruct ((0 <? size des0) && (0 <? size desi));
    [|by cbn; rewrite (right_id_L [] (++))].
  cbv zeta. rewrite bind_log.
  destruct (decide (length _ < MIN_MATCHES)); [done|].
  rewrite (traverse_points _ _ _ _ _ _ _ Hp0). unfold matched_points.
  destruct (mapM _ _) as [src|]; [|done]. cbn [fmap option_fmap option_map].
  rewrite (traverse_points _ _ _ _ _ _ _ Hpi).
  destruct (mapM _ _) as [dst|]; [|done]. cbn [fmap option_fmap option_map].
  rewrite bind_log.
  destruct (estimateAffinePartial2D _ _) as [M|];
    [|by unfold raise; rewrite <- (assoc_L (++))].
  rewrite (bind_read_list _ _ _ _ _ _ Hl), (bind_getitem _ _ _ _ _ Hx),
    (bind_read_array _ _ _ _ _ _ HX), (bind_read_list _ _ _ _ _ _ Hl),
    (bind_getitem _ _ _ _ _ Hr0), (bind_read_array _ _ _ _ _ _ HR).
  rewrite bind_log, bind_alloc.
  rewrite (setitem_run ka i _ xs).
  - by rewrite <- !(assoc_L (++)).
  - by apply lookup_app_l_Some.
  - done.
Qed.

Ltac py_step :=
  rewrite ?bind_assoc, ?bind_ret; cbn [traverse];
  first [ erewrite bind_read_list by eassumption
        | erewrite bind_read_array by eassumption
        | rewrite bind_alloc
        | rewrite bind_log
        | unfold ndarray_copy, detectAndCompute ].

Lemma images_of_triple s l R G B :
  images_of s l = Some [R; G; B] →
  ∃ r g b, heap s !! l = Some (OList [r; g; b]) ∧
           heap s !! r = Some (ONdarray R) ∧
           heap s !! g = Some (ONdarray G) ∧
           heap s !! b = Some (ONdarray B).
Proof.
  unfold images_of. destruct (heap s !! l) as [[|xs]|] eqn:Hl; try done.
  intros Hm. apply mapM_Some in Hm.
  assert (∀ x a, image_at s x = Some a → heap s !! x = Some (ONdarray a)) as Him.
  { unfold image_at. intros x a. by destruct (heap s !! x) as [[]|]; intros [= ->]. }
  repeat match goal with
         | Hf : Forall2 _ _ (_ :: _) |- _ =>
             apply Forall2_cons_inv_r in Hf as (? & ? & ? & Hf & ->)
         | Hf : Forall2 _ _ [] |- _ => apply Forall2_nil_inv_r in Hf as ->
         end.
  eauto 10.
Qed.

Lemma align_images_run s l R G B :
  images_of s l = Some [R; G; B] → align_images l s = run_summary s R G B.
Proof.
  intros (r & g & b & Hl & Hr & Hg & Hb)%images_of_triple.
  destruct s as [h c]; cbn [heap calls] in *.
  unfold align_images.
  rewrite <- (right_id_L [] (++) h) at 1.
  do 10 py_step. cbn [app length].
  unfold detectAndCompute. do 11 py_step. cbn [app length].
  rewrite Nat.add_0_r, <- !(assoc_L (++) c). cbn [app for_].
  rewrite bind_assoc. unfold bind at 1.
  erewrite (align_channel_run l r g [r; g; b] 3 _ 1 R G); [|done..|cbn; lia].
  unfold run_summary; cbn [heap calls].
  destruct (channel_verdict R G 1) as [[|a1|e1] c1]; cbn [fst snd].
  - rewrite bind_assoc. unfold bind at 1.
    erewrite (align_channel_run l r b [r; g; b] 3 _ 2 R B); [|done..|cbn; lia].
    destruct (channel_verdict R B 2) as [[|a2|e2] c2]; cbn [fst snd];
      cbn; by rewrite <- ?(assoc_L (++)).
  - cbn [app length list_insert insert]. rewrite bind_assoc. unfold bind at 1.
    erewrite (align_channel_run l r b [r; g; b] 3 _ 2 R B); [|done..|cbn; lia].
    destruct (channel_verdict R B 2) as [[|a2|e2] c2]; cbn [fst snd];
      cbn; by rewrite <- ?(assoc_L (++)).
  - cbn; by rewrite <- ?(assoc_L (++)).
Qed.

Lemma channel_verdict_spec R X i :
  channel_spec R X i (fst (channel_verdict R X i)) (snd (channel_verdict R X i)).
Proof.
  unfold channel_verdict.
  destruct (snd (ORB_detectAndCompute 1000 R)) as [q|] eqn:Hq;
    [|constructor; unfold no_descriptors; by rewrite Hq].
  destruct (snd (ORB_detectAndCompute 1000 X)) as [t|] eqn:Ht;
    [|constructor; unfold no_descriptors; rewrite Ht; apply orb_true_r].
  destruct ((0 <? size q) && (0 <? size t)) eqn:Hsz;
    [|constructor; unfold no_descriptors; rewrite Hq, Ht, <- negb_andb;
      by rewrite Hsz].
  assert (matched R X q t (BFMatcher_match NORM_HAMMING true q t)) as Hm.
  { repeat split; try done. unfold no_descriptors.
    by rewrite Hq, Ht, <- negb_andb, Hsz. }
  cbv zeta. case_decide as Hlen; [by constructor|].
  apply Nat.nlt_ge in Hlen.
  destruct (matched_points (fst _) queryIdx _) as [to|] eqn:Hto;
    [|by constructor].
  destruct (matched_points (fst _) trainIdx _) as [from|] eqn:Hfrom;
    [|by constructor].
  destruct (estimateAffinePartial2D from to) as [M|] eqn:HM; cbn [fst snd].
  - by apply spec_resampled.
  - by apply spec_no_transform.
Qed.

Lemma align_images_spec s l R G B :
  images_of s l = Some [R; G; B] → run_spec s R G B (align_images l s).
Proof.
  intros Hin. rewrite (align_images_run _ _ _ _ _ Hin). unfold run_summary.
  pose proof (channel_verdict_spec R G 1) as H1.
  pose proof (channel_verdict_spec R B 2) as H2.
  destruct (channel_verdict R G 1) as [v1 c1], (channel_verdict R B 2) as [v2 c2].
  cbn [fst snd] in *. rewrite <- !(assoc_L (++)).
  destruct v1, v2; first [by eapply run_failed_green
                         | by eapply run_failed_blue
                         | by eapply run_returned ].
Qed.

(** Looking into the part of the store a run has added. *)
Lemma lookup_new h new k : (h ++ new) !! (length h + k) = new !! k.
Proof. rewrite lookup_app_r by lia. f_equal. lia. Qed.

Lemma image_at_new h new c k :
  image_at (State (h ++ new) c) (length h + k)
  = match new !! k with Some (ONdarray a) => Some a | _ => None end.
Proof. unfold image_at; cbn. by rewrite lookup_new. Qed.

Lemma image_at_new0 h new c :
  image_at (State (h ++ new) c) (length h)
  = match new !! 0 with Some (ONdarray a) => Some a | _ => None end.
Proof. by rewrite <- (Nat.add_0_r (length h)), image_at_new. Qed.

Lemma images_of_returned h c R G B v1 v2 :
  is_failed v1 = false → is_failed v2 = false →
  images_of (State (h ++ new_objs (length h) R G B v1 v2) c) (length h + 3)
  = Some [R; result_image G v1; result_image B v2].
Proof.
  intros Hv1 Hv2. unfold images_of; cbn [heap]. rewrite lookup_new.
  cbn [new_objs app lookup list_lookup].
  destruct v1, v2; try done; cbn [mapM is_resampled];
    rewrite image_at_new0, !image_at_new; reflexivity.
Qed.

Lemma new_calls_app h h' c c' : new_calls (State h c) (State h' (c ++ c')) = c'.
Proof. unfold new_calls; cbn. by rewrite drop_app_length. Qed.
End run.

(** * The alignment contract *)

Section contract.
Context `{CV2}.
Implicit Types (s : state) (R G B X : ndarray).

Ltac run_cases Hin Hrun :=
  let Hs := fresh "Hs" in
  pose proof (align_images_spec _ _ _ _ _ Hin) as Hs;
  rewrite Hrun in Hs;
  inversion Hs as [e c1 Hg | v1 c1 e c2 Hg Hv1 Hb | v1 c1 v2 c2 Hg Hv1 Hb Hv2];
  subst; clear Hs.

(** C4. When [align_images] returns, the first image of the result has
    the pixel content of the first input image. *)
Theorem reference_passes_through s l R G B out s' :
  images_of s l = Some [R; G; B] →
  align_images l s = (inr out, s') →
  ∃ G' B', images_of s' out = Some [R; G'; B'].
Proof.
  intros Hin Hrun. run_cases Hin Hrun.
  destruct s as [h c]; cbn [heap calls]. rewrite images_of_returned by done.
  eauto.
Qed.

Lemma channel_spec_channel R X i v cs :
  channel_spec R X i v cs → Forall (λ c, call_channel c = Some i) cs.
Proof. destruct 1; repeat constructor. Qed.

Lemma channel_spec_skipped R X i v cs :
  channel_spec R X i v cs → no_descriptors R || no_descriptors X = true →
  v = Skipped ∧ cs = [].
Proof.
  destruct 1 as [|???[_[_[Hn _]]]|???[_[_[Hn _]]]
                 |?????[_[_[Hn _]]]|??????[_[_[Hn _]]]]; try done;
    rewrite Hn; done.
Qed.

(** Where a call tagged [i] sits among the calls of a run. *)
Lemma calls_of_channel R G B (c1 c2 : list cv2_call) c i :
  Forall (λ c, call_channel c = Some 1) c1 →
  Forall (λ c, call_channel c = Some 2) c2 →
  c ∈ [CallDetect R; CallDetect G; CallDetect B] ++ c1 ++ c2 →
  call_channel c = Some i →
  (i = 1 ∧ c ∈ c1) ∨ (i = 2 ∧ c ∈ c2).
Proof.
  intros H1 H2 Hc Hi. rewrite Forall_forall in H1, H2.
  rewrite !elem_of_app, !elem_of_cons, elem_of_nil in Hc.
  destruct Hc as [[->|[->|[->|[]]]]|[Hc|Hc]]; try done.
  - left. split; [|done]. apply H1 in Hc. congruence.
  - right. split; [|done]. apply H2 in Hc. congruence.
Qed.

Lemma channel_result_intro s s' R G B i X v cs (c1 c2 : list cv2_call) :
  channel_spec R X i v cs → is_failed v = false →
  Forall (λ c, call_channel c = Some 1) c1 →
  Forall (λ c, call_channel c = Some 2) c2 →
  new_calls s s' = [CallDetect R; CallDetect G; CallDetect B] ++ c1 ++ c2 →
  (i = 1 ∧ cs = c1) ∨ (i = 2 ∧ cs = c2) →
  channel_result s s' R i X (result_image X v).
Proof.
  intros Hspec Hv H1 H2 Hnew Hi. unfold channel_result. rewrite Hnew.
  destruct Hspec as [Hn| | | |q t ms from to M [_[_[Hn _]]] _ _]; try done.
  - rewrite Hn. split; [done|]. intros c Hc Hch.
    destruct (calls_of_channel _ _ _ _ _ _ _ H1 H2 Hc Hch) as [[-> Hin]|[-> Hin]];
      destruct Hi as [[? <-]|[? <-]]; try done; by apply elem_of_nil in Hin.
  - rewrite Hn. exists M. split; [|done].
    rewrite !elem_of_app.
    destruct Hi as [[_ <-]|[_ <-]]; right; [left|right];
      rewrite !elem_of_cons; auto.
Qed.

Ltac invert_channels :=
  repeat match goal with
         | Hc : channel_spec _ _ _ _ _ |- _ =>
             inversion Hc; subst; clear Hc; try discriminate
         end;
  unfold fitted in *; destruct_and?.

(** The images of a returned triple. *)
Lemma returned_images s l R G B out s' :
  images_of s l = Some [R; G; B] →
  align_images l s = (inr out, s') →
  ∃ G' B', images_of s' out = Some [R; G'; B'] ∧
    channel_result s s' R 1 G G' ∧ channel_result s s' R 2 B B'.
Proof.
  intros Hin Hrun. run_cases Hin Hrun.
  destruct s as [h c]; cbn [heap calls] in *.
  rewrite images_of_returned by done. do 2 eexists. split; [done|].
  pose proof (channel_spec_channel _ _ _ _ _ Hg) as Hc1.
  pose proof (channel_spec_channel _ _ _ _ _ Hb) as Hc2.
  split; eapply (channel_result_intro _ _ R G B); eauto;
    apply new_calls_app.
Qed.

(** C1, as the code has it.  When [align_images] returns, the reference
    is unchanged and each non-reference channel is either the channel
    resampled to the reference (ORB gave descriptors for it and for the
    reference) or a copy of the original (it did not); the two channels
    are decided independently of each other. *)
Theorem channels_resampled_or_copied s l R G B out s' :
  images_of s l = Some [R; G; B] →
  align_images l s = (inr out, s') →
  ∃ G' B', images_of s' out = Some [R; G'; B'] ∧
    channel_result s s' R 1 G G' ∧ channel_result s s' R 2 B B'.
Proof. apply returned_images. Qed.

Lemma channel_result_shape s s' R i X X' :
  (∀ src M w h, shape (warpAffine src M (w, h)) = (h, w)) →
  channel_result s s' R i X X' →
  shape X' = if no_descriptors R || no_descriptors X then shape X else shape R.
Proof.
  intros Hwarp. unfold channel_result.
  destruct (no_descriptors R || no_descriptors X).
  - by intros [-> _].
  - intros (M & _ & ->). rewrite Hwarp. by destruct (shape R).
Qed.

(** C2, as the code has it.  When [align_images] returns, the reference
    and every channel that was resampled have the reference's height and
    width ([warpAffine] producing an image of the size it is asked for);
    a channel passed through for want of descriptors keeps its own. *)
Theorem resampled_channels_have_reference_shape s l R G B out s' :
  (∀ src M w h, shape (warpAffine src M (w, h)) = (h, w)) →
  images_of s l = Some [R; G; B] →
  align_images l s = (inr out, s') →
  ∃ R' G' B', images_of s' out = Some [R'; G'; B'] ∧
    shape R' = shape R ∧
    shape G' = (if no_descriptors R || no_descriptors G
                then shape G else shape R) ∧
    shape B' = (if no_descriptors R || no_descriptors B
                then shape B else shape R).
Proof.
  intros Hwarp Hin Hrun.
  destruct (returned_images _ _ _ _ _ _ _ Hin Hrun) as (G' & B' & Ho & HG & HB).
  exists R, G', B'. repeat split; [done|..];
    by eapply channel_result_shape.
Qed.

(** The text of the two messages. *)
Lemma insufficient_msg_eq n :
  insufficient_msg n = "Insufficient matches (" +:+ pretty n +:+ "/50)".
Proof. reflexivity. Qed.

Lemma estimate_failed_msg_eq i :
  estimate_failed_msg i
  = "Failed to estimate transformation for channel " +:+ pretty i.
Proof. reflexivity. Qed.

(** Every matching call of a run is the cross-checked Hamming match of the
    reference's descriptors against those of the channel being processed;
    its result is used as it comes. *)
Lemma match_calls_are_cross_checked s l R G B r s' k i q t ms :
  images_of s l = Some [R; G; B] →
  align_images l s = (r, s') →
  new_calls s s' !! k = Some (CallMatch i q t ms) →
  ∃ X, (i = 1 ∨ i = 2) ∧ [R; G; B] !! i = Some X ∧
       snd (ORB_detectAndCompute 1000 R) = Some q ∧
       snd (ORB_detectAndCompute 1000 X) = Some t ∧
       ms = BFMatcher_match NORM_HAMMING true q t.
Proof.
  intros Hin Hrun Hk. destruct s as [h c].
  run_cases Hin Hrun; rewrite new_calls_app in *;
    repeat match goal with
           | Hc : channel_spec _ _ _ _ _ |- _ =>
               inversion Hc; subst; clear Hc; try discriminate
           end;
    repeat (destruct k as [|k]; simplify_eq/=).
  all: match goal with
       | Hm : matched _ ?X _ _ _ |- _ =>
           destruct Hm as (? & ? & _ & ?); exists X; by auto 10
       end.
Qed.

(** C3. A [BFMatcher.match] call of the run that returns fewer than 50
    matches is the last OpenCV call of the run: the run raises
    AlignmentError with the message "Insufficient matches (n/50)", n the
    number of matches, and no estimate is attempted for that channel. *)
Theorem short_match_aborts s l R G B r s' k i q t ms :
  images_of s l = Some [R; G; B] →
  align_images l s = (r, s') →
  new_calls s s' !! k = Some (CallMatch i q t ms) →
  length ms < 50 →
  r = inl (Raise AlignmentError
             ("Insufficient matches (" +:+ pretty (length ms) +:+ "/50)")) ∧
  length (new_calls s s') = S k ∧
  ∀ from to res, CallEstimate i from to res ∉ new_calls s s'.
Proof.
  intros Hin Hrun Hk Hlen. rewrite <- insufficient_msg_eq. destruct s as [h c].
  run_cases Hin Hrun; rewrite new_calls_app in *;
    invert_channels;
    repeat (destruct k as [|k]; simplify_eq/=); try (unfold MIN_MATCHES in *; lia).
  all: repeat split; try done.
  all: intros ???; rewrite !elem_of_cons, elem_of_nil; intuition congruence.
Qed.

(** C6. An [estimateAffinePartial2D] call of the run that returns no
    transform makes the run raise AlignmentError with the message
    "Failed to estimate transformation for channel i", i the index of the
    channel whose correspondences (at least 50 of them, matched against
    the reference) were passed to the estimator. *)
Theorem failed_fit_names_channel s l R G B r s' k i from to :
  images_of s l = Some [R; G; B] →
  align_images l s = (r, s') →
  new_calls s s' !! k = Some (CallEstimate i from to None) →
  r = inl (Raise AlignmentError
             ("Failed to estimate transformation for channel " +:+ pretty i)) ∧
  ∃ X k' q t ms,
    (i = 1 ∨ i = 2) ∧ [R; G; B] !! i = Some X ∧
    new_calls s s' !! k' = Some (CallMatch i q t ms) ∧
    50 ≤ length ms ∧ matched R X q t ms ∧ fitted R X ms from to.
Proof.
  intros Hin Hrun Hk. rewrite <- estimate_failed_msg_eq. destruct s as [h c].
  run_cases Hin Hrun; rewrite new_calls_app in *;
    repeat match goal with
         | Hc : channel_spec _ _ _ _ _ |- _ =>
             inversion Hc; subst; clear Hc; try discriminate
         end;
    repeat (destruct k as [|k]; simplify_eq/=).
  all: split; [done|].
  all: match goal with
       | Hf : fitted _ ?X ?ms _ _, Hm : matched _ ?X ?q ?t ?ms |- _ =>
           first [ by exists X, 3, q, t, ms; split_and!; auto; apply Hf
                 | by exists X, 6, q, t, ms; split_and!; auto; apply Hf ]
       end.
Qed.

(** C5. If ORB gives no descriptors for the reference or for channel
    [i], no matching, estimate or resampling call is made for that
    channel; a returned triple holds at [i] a fresh array with the
    content of the original, and an exception, if any, was raised while
    the other channel was being processed. *)
Theorem channel_without_descriptors_is_copied s l R G B r s' i X :
  images_of s l = Some [R; G; B] →
  i = 1 ∨ i = 2 →
  [R; G; B] !! i = Some X →
  no_descriptors R || no_descriptors X = true →
  align_images l s = (r, s') →
  (∀ c, c ∈ new_calls s s' → call_channel c ≠ Some i) ∧
  match r with
  | inr out =>
      ∃ xs x, heap s' !! out = Some (OList xs) ∧ xs !! i = Some x ∧
              heap s !! x = None ∧ image_at s' x = Some X
  | inl e =>
      ∃ c j, last (new_calls s s') = Some c ∧
             call_channel c = Some j ∧ j ≠ i
  end.
Proof.
  intros Hin Hi HX Hno Hrun. destruct s as [h c].
  assert (∀ k, h !! (length h + k) = None) as Hfresh
    by (intros k; apply lookup_ge_None; lia).
  destruct Hi as [-> | ->]; simplify_eq/=;
    run_cases Hin Hrun; rewrite new_calls_app; cbn [heap];
    try match goal with
        | Hc : channel_spec _ X _ _ _ |- _ =>
            destruct (channel_spec_skipped _ _ _ _ _ Hc Hno); simplify_eq
        end;
    invert_channels; cbn [app];
    (split; [intros c0; rewrite !elem_of_cons, elem_of_nil;
             intuition (subst; discriminate)|]).
  all: try (by eexists _, _; split_and!; [reflexivity..|]).
  all: rewrite lookup_new; cbn [new_objs app lookup list_lookup is_resampled];
    eexists _, _; (split; [reflexivity|]); (split; [reflexivity|]);
    by rewrite image_at_new.
Qed.

Lemma last_calls h c (cs : list cv2_call) x :
  last (calls (State h (c ++ cs))) = Some x → cs ≠ [] → last cs = Some x.
Proof.
  cbn. intros Hl Hne. destruct cs as [|y cs] using rev_ind; [done|].
  rewrite (assoc_L (++)), last_snoc in Hl. by rewrite last_snoc.
Qed.

(** C7, as the code has it.  Both kinds of failure are raised as the one
    class AlignmentError, whose only payload is its message: a run that
    stops at a match of fewer than 50 correspondences raises it with
    "Insufficient matches (n/50)", a run that stops at a failed estimate
    with "Failed to estimate transformation for channel i".  The class is
    the same; the messages differ. *)
Theorem failures_differ_by_message_only s1 l1 R1 G1 B1 e1 s2 l2 R2 G2 B2 e2 :
  images_of s1 l1 = Some [R1; G1; B1] →
  images_of s2 l2 = Some [R2; G2; B2] →
  insufficient_failure l1 s1 e1 →
  estimation_failure l2 s2 e2 →
  exc_class e1 = AlignmentError ∧ exc_class e2 = AlignmentError ∧
  (∃ n, n < 50 ∧
     exc_msg e1 = "Insufficient matches (" +:+ pretty n +:+ "/50)") ∧
  (∃ i, (i = 1 ∨ i = 2) ∧
     exc_msg e2 = "Failed to estimate transformation for channel " +:+ pretty i) ∧
  exc_msg e1 ≠ exc_msg e2.
Proof.
  intros Hin1 Hin2 (s1' & i1 & q & t & ms & Hrun1 & Hlast1 & Hlen)
    (s2' & i2 & from & to & Hrun2 & Hlast2).
  assert (∃ n, n < 50 ∧ e1 = Raise AlignmentError (insufficient_msg n))
    as (n & Hn & ->).
  { clear Hin2 Hrun2 Hlast2. destruct s1 as [h c].
    run_cases Hin1 Hrun1; invert_channels;
      apply last_calls in Hlast1; try done; simplify_eq/=;
      try (unfold MIN_MATCHES in *; lia); eauto. }
  assert (∃ i, (i = 1 ∨ i = 2) ∧
               e2 = Raise AlignmentError (estimate_failed_msg i))
    as (i & Hi & ->).
  { clear Hin1 Hrun1 Hlast1. destruct s2 as [h c].
    run_cases Hin2 Hrun2; invert_channels;
      apply last_calls in Hlast2; try done; simplify_eq/=; eauto. }
  cbn [exc_class exc_msg]. split_and!; [done..|eauto|eauto|done].
Qed.

(** What a caller observes of a run is a function of the three images. *)
Lemma observe_run s R G B :
  observe (run_summary s R G B)
  = match fst (channel_verdict R G 1), fst (channel_verdict R B 2) with
    | Failed e, _ => inl e
    | _, Failed e => inl e
    | v1, v2 => inr (Some [R; result_image G v1; result_image B v2])
    end.
Proof.
  unfold run_summary, observe. destruct s as [h c]; cbn [heap calls].
  destruct (fst (channel_verdict R G 1)), (fst (channel_verdict R B 2));
    cbn [fst snd]; try done; by rewrite images_of_returned.
Qed.

Lemma new_calls_run s R G B :
  new_calls s (snd (run_summary s R G B))
  = [CallDetect R; CallDetect G; CallDetect B]
    ++ snd (channel_verdict R G 1)
    ++ match fst (channel_verdict R G 1) with
       | Failed _ => []
       | _ => snd (channel_verdict R B 2)
       end.
Proof.
  unfold run_summary. destruct s as [h c]; cbn [heap calls].
  destruct (fst (channel_verdict R G 1)), (fst (channel_verdict R B 2));
    cbn [fst snd]; rewrite <- ?(assoc_L (++)), new_calls_app;
    by rewrite ?(right_id_L [] (++)).
Qed.

(** C9. Two runs on input lists whose images have the same content, in
    whatever stores and at whatever locations, make the same OpenCV calls
    and end alike: with the same exception, or with triples of images of
    the same content. *)
Theorem align_images_deterministic s1 l1 s2 l2 R G B :
  images_of s1 l1 = Some [R; G; B] →
  images_of s2 l2 = Some [R; G; B] →
  observe (align_images l1 s1) = observe (align_images l2 s2) ∧
  new_calls s1 (snd (align_images l1 s1))
  = new_calls s2 (snd (align_images l2 s2)).
Proof.
  intros H1 H2.
  rewrite (align_images_run _ _ _ _ _ H1), (align_images_run _ _ _ _ _ H2).
  by rewrite !observe_run, !new_calls_run.
Qed.

Lemma images_of_frame h new c c' l imgs :
  images_of (State h c) l = Some imgs →
  images_of (State (h ++ new) c') l = Some imgs.
Proof.
  unfold images_of; cbn [heap].
  destruct (h !! l) as [[|xs]|] eqn:Hl; try done.
  rewrite (lookup_app_l_Some _ _ _ _ Hl).
  rewrite !mapM_Some. intros Hf. eapply Forall2_impl; [exact Hf|].
  intros x a. unfold image_at; cbn.
  destruct (h !! x) as [o|] eqn:Hx; [|done].
  by rewrite (lookup_app_l_Some _ _ _ _ Hx).
Qed.

(** C10. A run, whether it returns or raises, leaves every object of the
    input store as it was, the input list and the three images among
    them; a returned list is a new object and so is each of its three
    images. *)
Theorem inputs_untouched_outputs_fresh s l R G B r s' :
  images_of s l = Some [R; G; B] →
  align_images l s = (r, s') →
  (∀ k o, heap s !! k = Some o → heap s' !! k = Some o) ∧
  images_of s' l = Some [R; G; B] ∧
  ∀ out, r = inr out →
    heap s !! out = None ∧
    ∃ x0 x1 x2, heap s' !! out = Some (OList [x0; x1; x2]) ∧
      Forall (λ x, heap s !! x = None ∧ is_Some (image_at s' x)) [x0; x1; x2].
Proof.
  intros Hin Hrun. destruct s as [h c].
  assert (∀ k, h !! (length h + k) = None) as Hfresh
    by (intros k; apply lookup_ge_None; lia).
  run_cases Hin Hrun; cbn [heap];
    (split; [by intros k o Hk; apply lookup_app_l_Some|]);
    (split; [by eapply images_of_frame|]); intros out [= <-].
  split; [done|]. rewrite lookup_new.
  destruct v1, v2; try done; cbn [new_objs app lookup list_lookup is_resampled];
    do 3 eexists; (split; [reflexivity|]);
    rewrite <- (Nat.add_0_r (length h)) at 1;
    repeat constructor; try done; by rewrite image_at_new.
Qed.
End contract.

(** * The matcher *)

Section matcher.
Variable norm : NormType.
Implicit Types (x y : list Z) (xs ys : list (list Z)).

Lemma nearest_None x ys j0 : nearest norm x ys j0 = None → ys = [].
Proof.
  destruct ys as [|y ys]; [done|]. cbn.
  destruct (nearest norm x ys (S j0)) as [[j' d']|]; [|done].
  by destruct (d' <? norm_dist norm x y)%Z.
Qed.

Lemma nearest_Some x ys j0 j d :
  nearest norm x ys j0 = Some (j, d) →
  j0 ≤ j ∧ ∃ y, ys !! (j - j0) = Some y ∧ d = norm_dist norm x y ∧
    ∀ k y', ys !! k = Some y' →
      (d < norm_dist norm x y')%Z ∨ (d = norm_dist norm x y' ∧ j ≤ j0 + k).
Proof.
  revert j0 j d. induction ys as [|y ys IH]; intros j0 j d; [done|].
  cbn [nearest]. destruct (nearest norm x ys (S j0)) as [[j' d']|] eqn:Hn.
  - apply IH in Hn as (Hle & y1 & Hy1 & -> & Hmin).
    destruct (Z.ltb_spec (norm_dist norm x y1) (norm_dist norm x y)) as [Hlt|Hge];
      intros [= <- <-].
    + split; [lia|]. exists y1. split_and!; [|done|].
      * replace (j' - j0) with (S (j' - S j0)) by lia. done.
      * intros [|k] y' Hk; simplify_eq/=; [by left|].
        destruct (Hmin _ _ Hk) as [?|[? ?]]; [by left|right]. split; [done|lia].
    + split; [lia|]. exists y. rewrite Nat.sub_diag. split_and!; [done..|].
      intros [|k] y' Hk; simplify_eq/=; [right; split; [done|lia]|].
      destruct (Hmin _ _ Hk) as [?|[? ?]]; [left; lia|].
      destruct (decide (norm_dist norm x y = norm_dist norm x y')) as [Heq|Hne];
        [right; split; [done|lia]|left; lia].
  - apply nearest_None in Hn as ->. intros [= <- <-].
    split; [lia|]. exists y. rewrite Nat.sub_diag. split_and!; [done..|].
    intros [|k] y' Hk; simplify_eq/=. right; split; [done|lia].
Qed.

Lemma nearest_best x ys j :
  best_match norm x ys j ↔ ∃ d, nearest norm x ys 0 = Some (j, d).
Proof.
  split.
  - intros (y & Hy & Hmin).
    destruct (nearest norm x ys 0) as [[j' d]|] eqn:Hn.
    + exists d. apply nearest_Some in Hn as (_ & y' & Hy' & -> & Hmin').
      rewrite Nat.sub_0_r in Hy'.
      destruct (Hmin _ _ Hy') as [?|[? ?]], (Hmin' _ _ Hy) as [?|[? ?]];
        try lia. by replace j' with j by lia.
    + apply nearest_None in Hn as ->. done.
  - intros (d & (_ & y & Hy & -> & Hmin)%nearest_Some).
    rewrite Nat.sub_0_r in Hy. exists y. split; [done|].
    intros k y' Hk. destruct (Hmin _ _ Hk) as [?|[? ?]]; [by left|by right].
Qed.

Lemma match_one_cross qs ts i x m :
  qs !! i = Some x →
  match_one norm true qs ts i x = Some m ↔
  ∃ j y, m = {| queryIdx := i; trainIdx := j; distance := norm_dist norm x y |} ∧
         ts !! j = Some y ∧
         best_match norm x ts j ∧ best_match norm y qs i.
Proof.
  intros Hx. unfold match_one. split.
  - destruct (nearest norm x ts 0) as [[j d]|] eqn:Hn; [|done].
    destruct (ts !! j) as [y|] eqn:Hy; [|done].
    destruct (nearest norm y qs 0) as [[i' d']|] eqn:Hn'; [|done].
    case_decide as Hi; [|done]. subst i'. intros [= <-].
    exists j, y. split_and!; [|done|..].
    + apply nearest_Some in Hn as (_ & y' & Hy' & -> & _).
      rewrite Nat.sub_0_r in Hy'. congruence.
    + apply nearest_best. eauto.
    + apply nearest_best. eauto.
  - intros (j & y & -> & Hy & [d Hn]%nearest_best & [d' Hn']%nearest_best).
    rewrite Hn, Hy, Hn'. rewrite decide_True by done.
    apply nearest_Some in Hn as (_ & y' & Hy' & -> & _).
    rewrite Nat.sub_0_r in Hy'. congruence.
Qed.

Lemma bf_match_cross query train m :
  m ∈ bf_match norm true query train ↔
  ∃ i j x y,
    m = {| queryIdx := i; trainIdx := j; distance := norm_dist norm x y |} ∧
    rows query !! i = Some x ∧ rows train !! j = Some y ∧
    best_match norm x (rows train) j ∧ best_match norm y (rows query) i.
Proof.
  unfold bf_match. rewrite list_elem_of_omap. split.
  - intros (o & (i & x & -> & Hx)%elem_of_lookup_imap & Hm). cbn in Hm.
    apply (match_one_cross _ _ _ _ _ Hx) in Hm as (j & y & -> & ? & ? & ?).
    by exists i, j, x, y.
  - intros (i & j & x & y & -> & Hx & Hy & Hb & Hb').
    exists (match_one norm true (rows query) (rows train) i x). split.
    + apply elem_of_lookup_imap. eauto.
    + cbn. apply (match_one_cross _ _ _ _ _ Hx). eauto 10.
Qed.
End matcher.

(** C8. [BFMatcher(NORM_HAMMING, crossCheck=True).match] accepts the pair
    of the [i]-th reference descriptor and the [j]-th target descriptor
    exactly when each is the other's best match under Hamming distance,
    whatever that distance is. *)
Theorem cross_checked_matches_are_mutual (query train : ndarray) (i j : nat) :
  (∃ m, m ∈ bf_match NORM_HAMMING true query train ∧
        queryIdx m = i ∧ trainIdx m = j)
  ↔ ∃ x y, rows query !! i = Some x ∧ rows train !! j = Some y ∧
           best_match NORM_HAMMING x (rows train) j ∧
           best_match NORM_HAMMING y (rows query) i.
Proof.
  split.
  - intros (m & (i' & j' & x & y & -> & Hx & Hy & Hb & Hb')%bf_match_cross
              & <- & <-).
    eauto 10.
  - intros (x & y & Hx & Hy & Hb & Hb').
    exists {| queryIdx := i; trainIdx := j;
              distance := norm_dist NORM_HAMMING x y |}.
    split; [|done]. apply bf_match_cross. eauto 10.
Qed.

(** * Concrete runs *)

Section runs.
Import Pixel.
Local Existing Instance cv2.

Lemma images_of_store r g b : images_of (store r g b) 3 = Some [r; g; b].
Proof. reflexivity. Qed.

Lemma run_after r g b : run r g b = (fst (run r g b), after r g b).
Proof. apply surjective_pairing. Qed.

Lemma run_passed_through :
  run textured featureless textured
  = (inr 7, after textured featureless textured).
Proof. reflexivity. Qed.

Lemma run_insufficient :
  run textured sparse textured
  = (inl (Raise AlignmentError "Insufficient matches (10/50)"),
     after textured sparse textured).
Proof. reflexivity. Qed.

Lemma run_no_transform :
  run line line textured
  = (inl (Raise AlignmentError
            "Failed to estimate transformation for channel 1"),
     after line line textured).
Proof. reflexivity. Qed.

(** The run on [textured], [featureless], [textured] returns with the
    blue channel resampled and the green channel never resampled. *)
Lemma all_or_nothing_fails :
  ¬ all_or_nothing (store textured featureless textured) 3.
Proof.
  intros Hall.
  destruct (Hall _ _ _ _ _ (images_of_store _ _ _) run_passed_through)
    as (R' & G' & B' & _ & (M & dsize & Hin & _) & _).
  assert (Forall (λ c, call_channel c ≠ Some 1)
            (new_calls (store textured featureless textured)
                       (after textured featureless textured))) as Hno
    by (apply (bool_decide_unpack _); vm_compute; exact I).
  rewrite Forall_forall in Hno. by apply Hno in Hin.
Qed.

(** In the same run the green channel comes back 2 by 3, the reference
    being 5 by 10. *)
Lemma same_dimensions_fails :
  ¬ same_dimensions (store textured featureless textured) 3.
Proof.
  intros Hdim.
  destruct (Hdim _ _ _ _ _ (images_of_store _ _ _) run_passed_through)
    as (R' & G' & B' & Hout & _ & HG & _).
  vm_compute in Hout. by simplify_eq.
Qed.

Lemma sparse_run_is_insufficient :
  insufficient_failure 3 (store textured sparse textured)
    (Raise AlignmentError "Insufficient matches (10/50)").
Proof.
  exists (after textured sparse textured), 1,
    (descriptors textured), (descriptors sparse),
    (bf_match NORM_HAMMING true (descriptors textured) (descriptors sparse)).
  split; [exact run_insufficient|]. split; [reflexivity|].
  vm_compute. lia.
Qed.

Lemma line_run_is_estimation :
  estimation_failure 3 (store line line textured)
    (Raise AlignmentError "Failed to estimate transformation for channel 1").
Proof.
  exists (after line line textured), 1, (points line), (points line).
  split; [exact run_no_transform|]. reflexivity.
Qed.

(** A run that stops for want of matches and a run that stops at a
    failed estimate raise exceptions of one class. *)
Lemma typed_failures_fails : ¬ typed_failures.
Proof.
  intros Htyped.
  by apply (Htyped _ _ _ _ _ _ sparse_run_is_insufficient line_run_is_estimation).
Qed.

(** Two query descriptors share their nearest train descriptor; the cross
    check keeps the pair that is mutual and drops the other, which the
    plain nearest-neighbour match keeps. *)
Example cross_check_drops_many_to_one :
  bf_match NORM_HAMMING true (Ndarray (2, 1) [7; 1]%Z) (Ndarray (1, 1) [3]%Z)
  = [{| queryIdx := 0; trainIdx := 0; distance := 1%Z |}] ∧
  bf_match NORM_HAMMING false (Ndarray (2, 1) [7; 1]%Z) (Ndarray (1, 1) [3]%Z)
  = [{| queryIdx := 0; trainIdx := 0; distance := 1%Z |};
     {| queryIdx := 1; trainIdx := 0; distance := 1%Z |}].
Proof. by vm_compute. Qed.

(** Fifty matches are enough: the floor is strict. *)
Example fifty_matches_suffice :
  length (bf_match NORM_HAMMING true (descriptors textured)
            (descriptors textured)) = 50 ∧
  fst (run textured textured textured) = inr 7.
Proof. split; [by vm_compute | reflexivity]. Qed.

Lemma warp_shape src M w h : shape (warp src M (w, h)) = (h, w).
Proof. reflexivity. Qed.

Lemma channels_resampled_or_copied_witness :
  ∃ G' B',
    images_of (after textured featureless textured) 7
    = Some [textured; G'; B'] ∧
    channel_result (store textured featureless textured)
      (after textured featureless textured) textured 1 featureless G' ∧
    channel_result (store textured featureless textured)
      (after textured featureless textured) textured 2 textured B'.
Proof.
  exact (channels_resampled_or_copied _ _ _ _ _ _ _
           (images_of_store _ _ _) run_passed_through).
Defined.

Lemma resampled_channels_have_reference_shape_witness :
  ∃ R' G' B',
    images_of (after textured featureless textured) 7 = Some [R'; G'; B'] ∧
    shape R' = (5, 10) ∧ shape G' = (2, 3) ∧ shape B' = (5, 10).
Proof.
  exact (resampled_channels_have_reference_shape _ _ _ _ _ _ _
           warp_shape (images_of_store _ _ _) run_passed_through).
Defined.

Lemma short_match_aborts_witness :
  fst (run textured sparse textured)
  = inl (Raise AlignmentError "Insufficient matches (10/50)") ∧
  length (new_calls (store textured sparse textured)
                    (after textured sparse textured)) = 4 ∧
  ∀ from to res,
    CallEstimate 1 from to res
    ∉ new_calls (store textured sparse textured)
                (after textured sparse textured).
Proof.
  refine (short_match_aborts _ _ _ _ _ _ _ 3 1
            (descriptors textured) (descriptors sparse)
            (bf_match NORM_HAMMING true (descriptors textured)
                      (descriptors sparse))
            (images_of_store _ _ _) (run_after _ _ _) _ _).
  - reflexivity.
  - vm_compute. lia.
Defined.

Lemma reference_passes_through_witness :
  ∃ G' B',
    images_of (after textured featureless textured) 7
    = Some [textured; G'; B'].
Proof.
  exact (reference_passes_through _ _ _ _ _ _ _
           (images_of_store _ _ _) run_passed_through).
Defined.

Lemma channel_without_descriptors_is_copied_witness :
  (∀ c, c ∈ new_calls (store textured featureless textured)
                      (after textured featureless textured) →
        call_channel c ≠ Some 1) ∧
  ∃ xs x,
    heap (after textured featureless textured) !! 7 = Some (OList xs) ∧
    xs !! 1 = Some x ∧
    heap (store textured featureless textured) !! x = None ∧
    image_at (after textured featureless textured) x = Some featureless.
Proof.
  refine (channel_without_descriptors_is_copied _ _ _ _ _ (inr 7) _ 1
            featureless (images_of_store _ _ _) _ _ _ run_passed_through).
  - by left.
  - reflexivity.
  - vm_compute; reflexivity.
Defined.

Lemma failed_fit_names_channel_witness :
  fst (run line line textured)
  = inl (Raise AlignmentError
           "Failed to estimate transformation for channel 1").
Proof.
  refine (proj1 (failed_fit_names_channel _ _ _ _ _ _ _ 4 1
                   (points line) (points line)
                   (images_of_store _ _ _) (run_after _ _ _) _)).
  reflexivity.
Defined.

Lemma failures_differ_by_message_only_witness :
  exc_class (Raise AlignmentError "Insufficient matches (10/50)")
  = exc_class (Raise AlignmentError
                 "Failed to estimate transformation for channel 1") ∧
  exc_msg (Raise AlignmentError "Insufficient matches (10/50)")
  ≠ exc_msg (Raise AlignmentError
               "Failed to estimate transformation for channel 1").
Proof.
  destruct (failures_differ_by_message_only _ _ _ _ _ _ _ _ _ _ _ _
              (images_of_store _ _ _) (images_of_store _ _ _)
              sparse_run_is_insufficient line_run_is_estimation)
    as (H1 & H2 & _ & _ & Hne).
  split; [exact (eq_trans H1 (eq_sym H2)) | exact Hne].
Defined.

Lemma images_of_shared : images_of shared 0 = Some [textured; sparse; textured].
Proof. reflexivity. Qed.

Lemma align_images_deterministic_witness :
  observe (align_images 3 (store textured sparse textured))
  = observe (align_images 0 shared) ∧
  new_calls (store textured sparse textured)
            (snd (align_images 3 (store textured sparse textured)))
  = new_calls shared (snd (align_images 0 shared)).
Proof.
  exact (align_images_deterministic _ _ _ _ _ _ _
           (images_of_store _ _ _) images_of_shared).
Defined.

Lemma inputs_untouched_outputs_fresh_witness :
  images_of (after textured featureless textured) 3
  = Some [textured; featureless; textured] ∧
  heap (store textured featureless textured) !! 7 = None ∧
  ∃ x0 x1 x2,
    heap (after textured featureless textured) !! 7
    = Some (OList [x0; x1; x2]) ∧
    Forall (λ x, heap (store textured featureless textured) !! x = None ∧
                 is_Some (image_at (after textured featureless textured) x))
           [x0; x1; x2].
Proof.
  destruct (inputs_untouched_outputs_fresh _ _ _ _ _ _ _
              (images_of_store _ _ _) run_passed_through)
    as (_ & Hin & Hout).
  exact (conj Hin (Hout 7 eq_refl)).
Defined.
End runs.

(** * More about runs on three images *)

Section order.
Context `{CV2}.
Implicit Types (s : state) (R G B X : ndarray).

Ltac run_cases' Hin Hrun :=
  let Hs := fresh "Hs" in
  pose proof (align_images_spec _ _ _ _ _ Hin) as Hs;
  rewrite Hrun in Hs;
  inversion Hs as [e c1 Hg | v1 c1 e c2 Hg Hv1 Hb | v1 c1 v2 c2 Hg Hv1 Hb Hv2];
  subst; clear Hs.

Ltac invert_specs :=
  repeat match goal with
         | Hc : channel_spec _ _ _ _ _ |- _ =>
             inversion Hc; subst; clear Hc; try discriminate
         end.

(** The calls of a run: the three detections, then the calls for the green
    channel, then those for the blue channel. *)
Lemma new_calls_split s l R G B r s' :
  images_of s l = Some [R; G; B] →
  align_images l s = (r, s') →
  ∃ c1 c2,
    new_calls s s' = [CallDetect R; CallDetect G; CallDetect B] ++ c1 ++ c2 ∧
    Forall (λ c, call_channel c = Some 1) c1 ∧
    Forall (λ c, call_channel c = Some 2) c2.
Proof.
  intros Hin Hrun. destruct s as [h c].
  run_cases' Hin Hrun; rewrite new_calls_app.
  - exists c1, []. rewrite (right_id_L [] (++)).
    eauto using channel_spec_channel.
  - exists c1, c2. eauto using channel_spec_channel.
  - exists c1, c2. eauto using channel_spec_channel.
Qed.


(** X2. The green channel is settled before the blue one is looked at:
    every call for channel 1 precedes every call for channel 2, and a
    call for channel 2 is made only if channel 1 was skipped or
    resampled. *)
Theorem green_before_blue s l R G B r s' :
  images_of s l = Some [R; G; B] →
  align_images l s = (r, s') →
  (∀ j k cj ck,
     new_calls s s' !! j = Some cj → call_channel cj = Some 1 →
     new_calls s s' !! k = Some ck → call_channel ck = Some 2 →
     j < k) ∧
  ((∃ c, c ∈ new_calls s s' ∧ call_channel c = Some 2) →
   (∀ c, c ∈ new_calls s s' → call_channel c ≠ Some 1) ∨
   (∃ M dsize, CallWarp 1 G M dsize ∈ new_calls s s')).
Proof.
  intros Hin Hrun. split.
  - destruct (new_calls_split _ _ _ _ _ _ _ Hin Hrun) as (c1 & c2 & -> & H1 & H2).
    rewrite Forall_lookup in H1, H2.
    intros j k cj ck Hj Hcj Hk Hck.
    rewrite (assoc_L (++)) in Hj, Hk.
    apply lookup_app_Some in Hj as [Hj|[Hlen Hj]];
      [|apply H2 in Hj; congruence].
    apply lookup_lt_Some in Hj.
    apply lookup_app_Some in Hk as [Hk|[Hlen Hk]]; [|lia].
    apply lookup_app_Some in Hk as [Hk|[_ Hk]].
    + by repeat (destruct k as [|k]; simplify_eq/=).
    + apply H1 in Hk. congruence.
  - intros (c0 & Hc0 & Htag). destruct s as [h c].
    assert (∀ v1 c1 (c2 : list cv2_call),
              channel_spec R G 1 v1 c1 → is_failed v1 = false →
              Forall (λ c, call_channel c = Some 2) c2 →
              (∀ c, c ∈ [CallDetect R; CallDetect G; CallDetect B] ++ c1 ++ c2 →
                    call_channel c ≠ Some 1) ∨
              (∃ M dsize, CallWarp 1 G M dsize
                 ∈ [CallDetect R; CallDetect G; CallDetect B] ++ c1 ++ c2))
      as Hsettled.
    { intros v1 c1 c2 Hg Hv1 H2. rewrite Forall_forall in H2.
      inversion Hg; subst; try done.
      - left. intros c'. rewrite !elem_of_app, !elem_of_cons, !elem_of_nil.
        intros [[->|[->|[->|[]]]]|[[]|Hc']]; try done.
        apply H2 in Hc'. congruence.
      - right. eexists _, _. rewrite !elem_of_app, !elem_of_cons. eauto 10. }
    run_cases' Hin Hrun; rewrite new_calls_app in *.
    + pose proof (channel_spec_channel _ _ _ _ _ Hg) as H1.
      rewrite Forall_forall in H1.
      rewrite !elem_of_cons in Hc0.
      destruct Hc0 as [->|[->|[->|Hc0]]]; try done.
      apply H1 in Hc0. congruence.
    + eapply Hsettled; eauto using channel_spec_channel.
    + eapply Hsettled; eauto using channel_spec_channel.
Qed.

(** X3. Every resampling of a run is of the channel's input image, with
    the matrix the estimator has just returned for that channel, to the
    reference's width and height. *)
Theorem resample_applies_the_estimate s l R G B r s' k i X M dsize :
  images_of s l = Some [R; G; B] →
  align_images l s = (r, s') →
  new_calls s s' !! k = Some (CallWarp i X M dsize) →
  (i = 1 ∨ i = 2) ∧ [R; G; B] !! i = Some X ∧
  dsize = (snd (shape R), fst (shape R)) ∧
  ∃ k' from to,
    k = S k' ∧
    new_calls s s' !! k' = Some (CallEstimate i from to (Some M)) ∧
    estimateAffinePartial2D from to = Some M.
Proof.
  intros Hin Hrun Hk. destruct s as [h c].
  run_cases' Hin Hrun; rewrite new_calls_app in *; invert_specs;
    repeat (destruct k as [|k]; simplify_eq/=);
    split_and!; auto; by eexists _, _, _.
Qed.

Lemma matched_points_lookup (kps : list (KeyPoint float)) idx ms pts :
  matched_points kps idx ms = Some pts →
  length pts = length ms ∧
  ∀ n m, ms !! n = Some m →
    ∃ kp, kps !! idx m = Some kp ∧
          pts !! n = Some (prod_map np_float32 np_float32 (pt kp)).
Proof.
  unfold matched_points. intros Hm.
  apply fmap_Some in Hm as (raw & Hraw & ->).
  apply mapM_Some in Hraw. split.
  - rewrite length_fmap. symmetry. by eapply Forall2_length.
  - intros n m Hn.
    destruct (Forall2_lookup_l _ _ _ _ _ Hraw Hn) as (p & Hp & Hkp).
    apply fmap_Some in Hkp as (kp & Hkp & ->).
    exists kp. split; [done|]. by rewrite list_lookup_fmap, Hp.
Qed.

(** X4. The estimator is asked for the transform from the channel to the
    reference: its first argument holds, match by match, the point of the
    channel's key point [trainIdx], its second the point of the
    reference's key point [queryIdx], both cast to float32; it follows the
    matching call of the same channel at once. *)
Theorem estimate_maps_channel_to_reference s l R G B r s' k i from to res :
  images_of s l = Some [R; G; B] →
  align_images l s = (r, s') →
  new_calls s s' !! k = Some (CallEstimate i from to res) →
  ∃ X k' q t ms,
    k = S k' ∧ [R; G; B] !! i = Some X ∧
    new_calls s s' !! k' = Some (CallMatch i q t ms) ∧
    res = estimateAffinePartial2D from to ∧
    length from = length ms ∧ length to = length ms ∧
    ∀ n m, ms !! n = Some m →
      ∃ kx kr,
        fst (ORB_detectAndCompute 1000 X) !! trainIdx m = Some kx ∧
        fst (ORB_detectAndCompute 1000 R) !! queryIdx m = Some kr ∧
        from !! n = Some (prod_map np_float32 np_float32 (pt kx)) ∧
        to !! n = Some (prod_map np_float32 np_float32 (pt kr)).
Proof.
  intros Hin Hrun Hk. destruct s as [h c].
  assert (∀ X ms,
            fitted R X ms from to →
            length from = length ms ∧ length to = length ms ∧
            ∀ n m, ms !! n = Some m →
              ∃ kx kr,
                fst (ORB_detectAndCompute 1000 X) !! trainIdx m = Some kx ∧
                fst (ORB_detectAndCompute 1000 R) !! queryIdx m = Some kr ∧
                from !! n = Some (prod_map np_float32 np_float32 (pt kx)) ∧
                to !! n = Some (prod_map np_float32 np_float32 (pt kr)))
    as Hpts.
  { intros X ms (_ & (Hlf & Hf)%matched_points_lookup
                   & (Hlt & Ht)%matched_points_lookup).
    split_and!; [done..|]. intros n m Hn.
    destruct (Hf _ _ Hn) as (kx & ? & ?), (Ht _ _ Hn) as (kr & ? & ?).
    by exists kx, kr. }
  run_cases' Hin Hrun; rewrite new_calls_app in *; invert_specs;
    repeat (destruct k as [|k]; simplify_eq/=);
    match goal with
    | Hf : fitted _ ?X ?ms from to |- _ =>
        destruct (Hpts _ _ Hf) as (? & ? & ?);
        eexists X, _, _, _, ms; by split_and!
    end.
Qed.

(** X5. The three arrays of a returned list are three different objects
    and none of them is the list, even when the input list holds one
    array three times. *)
Theorem result_arrays_are_distinct s l R G B out s' :
  images_of s l = Some [R; G; B] →
  align_images l s = (inr out, s') →
  ∃ x0 x1 x2,
    heap s' !! out = Some (OList [x0; x1; x2]) ∧
    NoDup [x0; x1; x2] ∧ (out ∉ [x0; x1; x2]) ∧ out ≠ l.
Proof.
  intros Hin Hrun.
  pose proof (images_of_triple _ _ _ _ _ Hin) as (r0 & g0 & b0 & Hl & _).
  apply lookup_lt_Some in Hl.
  destruct s as [h c]; cbn [heap] in *.
  run_cases' Hin Hrun; cbn [heap]. rewrite lookup_new.
  destruct v1, v2; try done; cbn [new_objs app lookup list_lookup is_resampled];
    do 3 eexists; (split; [reflexivity|]);
    (split; [|split; [|lia]]);
    rewrite ?NoDup_cons, ?elem_of_cons, ?elem_of_nil;
    split_and?; try apply NoDup_nil_2; lia.
Qed.






End order.

(** * Lists of other lengths *)

Section lengths.
Context `{CV2}.
Implicit Types (h new : list obj) (c : list cv2_call) (s : state).

Lemma traverse_copy {B} rs imgs (k : list nat → Py B) h new c :
  Forall2 (λ r a, h !! r = Some (ONdarray a)) rs imgs →
  bind (traverse ndarray_copy rs) k (State (h ++ new) c)
  = k (seq (length h + length new) (length rs))
      (State (h ++ (new ++ (ONdarray <$> imgs))) c).
Proof.
  intros Hf. revert new k.
  induction Hf as [|r a rs imgs Hr _ IH]; intros new k.
  - cbn. by rewrite (right_id_L [] (++)).
  - cbn [traverse]. unfold ndarray_copy at 1.
    rewrite !bind_assoc, (bind_read_array _ _ _ _ _ _ Hr), bind_alloc.
    rewrite bind_assoc, IH, bind_ret. cbn [length fmap list_fmap seq].
    rewrite length_app, <- (assoc_L (++)). cbn [length app].
    by rewrite Nat.add_assoc, Nat.add_1_r.
Qed.

Lemma traverse_detect {B} rs imgs
    (k : list (list (KeyPoint float) * option ndarray) → Py B) h new c :
  Forall2 (λ r a, h !! r = Some (ONdarray a)) rs imgs →
  bind (traverse detectAndCompute rs) k (State (h ++ new) c)
  = k (ORB_detectAndCompute 1000 <$> imgs)
      (State (h ++ new) (c ++ (CallDetect <$> imgs))).
Proof.
  intros Hf. revert c k.
  induction Hf as [|r a rs imgs Hr _ IH]; intros c k.
  - cbn. by rewrite (right_id_L [] (++)).
  - cbn [traverse]. unfold detectAndCompute at 1.
    rewrite !bind_assoc, (bind_read_array _ _ _ _ _ _ Hr), bind_assoc, bind_log.
    rewrite bind_ret, bind_assoc, IH, bind_ret. cbn [fmap list_fmap].
    by rewrite <- (assoc_L (++)).
Qed.

Lemma images_of_lookup s l imgs :
  images_of s l = Some imgs →
  ∃ rs, heap s !! l = Some (OList rs) ∧
        Forall2 (λ r a, heap s !! r = Some (ONdarray a)) rs imgs.
Proof.
  unfold images_of. destruct (heap s !! l) as [[|rs]|]; try done.
  intros Hm%mapM_Some. exists rs. split; [done|].
  eapply Forall2_impl; [exact Hm|]. intros r a. unfold image_at.
  by destruct (heap s !! r) as [[]|]; intros [= ->].
Qed.

(** The run up to the loop, on a list of any length. *)
Lemma align_images_prologue l rs imgs h c :
  h !! l = Some (OList rs) →
  Forall2 (λ r a, h !! r = Some (ONdarray a)) rs imgs →
  align_images l (State h c)
  = bind (for_ [1; 2]
            (align_channel l (length h + length rs)
               (ORB_detectAndCompute 1000 <$> imgs).*1
               (ORB_detectAndCompute 1000 <$> imgs).*2))
         (λ _, ret (length h + length rs))
         (State (h ++ ((ONdarray <$> imgs) ++ [OList (seq (length h) (length rs))]))
                (c ++ (CallDetect <$> imgs))).
Proof.
  intros Hl Hf. unfold align_images.
  rewrite <- (right_id_L [] (++) h) at 1.
  rewrite (bind_read_list _ _ _ _ _ _ Hl), (traverse_copy _ _ _ _ _ _ Hf).
  rewrite bind_alloc, (bind_read_list _ _ _ _ _ _ Hl).
  rewrite (traverse_detect _ _ _ _ _ _ Hf).
  cbn [length app]. rewrite Nat.add_0_r, length_fmap.
  by rewrite (Forall2_length _ _ _ Hf).
Qed.

(** X9. On an empty list the call raises IndexError (at [descriptors[0]])
    without a single OpenCV call. *)
Theorem empty_list_raises_index_error s l :
  images_of s l = Some [] →
  ∃ s', align_images l s
        = (inl (Raise IndexError "list index out of range"), s') ∧
        new_calls s s' = [].
Proof.
  intros (rs & Hl & Hf)%images_of_lookup. destruct s as [h c]; cbn [heap] in *.
  rewrite (align_images_prologue _ _ _ _ _ Hl Hf).
  apply Forall2_nil_inv_r in Hf as ->.
  eexists. split; [reflexivity|]. apply new_calls_app.
Qed.

Lemma copies_lookup h imgs rest k :
  k < length imgs →
  (h ++ ((ONdarray <$> imgs) ++ rest)) !! (length h + k)
  = ONdarray <$> imgs !! k.
Proof.
  intros Hk. rewrite lookup_new, lookup_app_l by by rewrite length_fmap.
  apply list_lookup_fmap.
Qed.

Lemma images_of_copies h imgs rest c :
  mapM (image_at (State (h ++ ((ONdarray <$> imgs) ++ rest)) c))
       (seq (length h) (length imgs))
  = Some imgs.
Proof.
  apply mapM_Some, Forall2_same_length_lookup. split; [by rewrite length_seq|].
  intros k x a Hx Ha. apply lookup_seq in Hx as [-> Hk].
  unfold image_at; cbn [heap]. by rewrite copies_lookup, Ha.
Qed.





Lemma image_at_kept h new c c' ka xs xs' a1 x a :
  new !! ka = Some (OList xs) →
  image_at (State (h ++ new) c) x = Some a →
  image_at (State (h ++ <[ka := OList xs']> (new ++ [ONdarray a1])) c') x
  = Some a.
Proof.
  intros Hka. unfold image_at; cbn [heap].
  destruct (decide (x < length h)) as [Hx|Hx].
  - by rewrite !lookup_app_l by done.
  - rewrite !lookup_app_r by lia.
    destruct (decide (x - length h = ka)) as [->|Hne]; [by rewrite Hka|].
    rewrite list_lookup_insert_ne by done.
    destruct (new !! (x - length h)) as [o|] eqn:Ho; [|done].
    by rewrite (lookup_app_l_Some _ _ _ _ Ho).
Qed.

(** One iteration keeps every slot of [aligned] but slot [i]. *)
Lemma align_channel_keeps_slots l r0 x rs ka xs outs i R X kds h new c s1 :
  h !! l = Some (OList rs) →
  rs !! 0 = Some r0 → h !! r0 = Some (ONdarray R) →
  rs !! i = Some x → h !! x = Some (ONdarray X) →
  kds !! 0 = Some (ORB_detectAndCompute 1000 R) →
  kds !! i = Some (ORB_detectAndCompute 1000 X) →
  new !! ka = Some (OList xs) → i < length xs →
  Forall2 (λ y a, image_at (State (h ++ new) c) y = Some a) xs outs →
  align_channel l (length h + ka) kds.*1 kds.*2 i (State (h ++ new) c)
  = (inr tt, s1) →
  ∃ new1 xs1 outs1,
    heap s1 = h ++ new1 ∧ new1 !! ka = Some (OList xs1) ∧
    length xs1 = length xs ∧
    Forall2 (λ y a, image_at s1 y = Some a) xs1 outs1 ∧
    ∀ k, k ≠ i → outs1 !! k = outs !! k.
Proof.
  intros Hl Hr0 HR Hx HX Hk0 Hki Hka Hi Hout.
  rewrite (align_channel_run l r0 x rs ka xs i R X) by done.
  destruct (channel_verdict R X i) as [[|a1|e1] c1]; intros [= <-]; cbn [heap].
  - exists new, xs, outs. split_and!; try done.
  - eexists _, (<[i := length h + length new]> xs), (<[i := a1]> outs).
    split_and!; [done| | | |].
    + apply list_lookup_insert_eq. rewrite length_app.
      apply lookup_lt_Some in Hka. lia.
    + apply length_insert.
    + apply Forall2_insert.
      * eapply Forall2_impl; [exact Hout|]. intros y a Hy.
        cbv beta in Hy |- *. eapply image_at_kept; [exact Hka|exact Hy].
      * unfold image_at; cbn [heap]. rewrite lookup_new.
        rewrite list_lookup_insert_ne
          by (apply lookup_lt_Some in Hka; lia).
        by rewrite lookup_app_r, Nat.sub_diag by done.
    + intros k Hk. by apply list_lookup_insert_ne.
Qed.

(** X12. On a list of more than three images the call works on the
    first three only: when it returns, the result has as many images as
    the input, and every image but the second and the third has the
    content of its original. *)
Theorem further_images_are_copied s l imgs out s' :
  images_of s l = Some imgs →
  3 ≤ length imgs →
  align_images l s = (inr out, s') →
  ∃ outs,
    images_of s' out = Some outs ∧ length outs = length imgs ∧
    ∀ k, k ≠ 1 → k ≠ 2 → outs !! k = imgs !! k.
Proof.
  intros Hin Hlen.
  destruct (images_of_lookup _ _ _ Hin) as (rs & Hl & Hf).
  destruct s as [h c]; cbn [heap] in *.
  rewrite (align_images_prologue _ _ _ _ _ Hl Hf).
  pose proof (Forall2_length _ _ _ Hf) as Hlen'.
  destruct imgs as [|R [|G [|B imgs]]]; cbn [length] in Hlen; try lia.
  apply Forall2_cons_inv_r in Hf as (r0 & rs1 & Hr0 & Hf & ->).
  apply Forall2_cons_inv_r in Hf as (r1 & rs2 & Hr1 & Hf & ->).
  apply Forall2_cons_inv_r in Hf as (r2 & rs3 & Hr2 & Hf & ->).
  set (all := R :: G :: B :: imgs) in *.
  set (locs := r0 :: r1 :: r2 :: rs3) in *.
  set (kds := ORB_detectAndCompute 1000 <$> all).
  set (new0 := (ONdarray <$> all) ++ [OList (seq (length h) (length locs))]).
  assert (new0 !! length locs
          = Some (OList (seq (length h) (length locs)))) as Hka0.
  { unfold new0. rewrite lookup_app_r by by rewrite length_fmap, Hlen'.
    by rewrite length_fmap, Hlen', Nat.sub_diag. }
  assert (Forall2 (λ y a, image_at (State (h ++ new0) (c ++ (CallDetect <$> all))) y
                          = Some a)
            (seq (length h) (length locs)) all) as Hout0.
  { rewrite Hlen'. apply mapM_Some, images_of_copies. }
  cbn [for_]. rewrite bind_assoc. unfold bind at 1.
  destruct (align_channel _ _ _ _ 1 _) as [[e|[]] s1] eqn:Hstep1; [done|].
  destruct (align_channel_keeps_slots l r0 r1 locs _ _ all 1 R G kds h new0
              (c ++ (CallDetect <$> all)) s1
              Hl eq_refl Hr0 eq_refl Hr1 eq_refl eq_refl Hka0)
    as (new1 & xs1 & outs1 & Hh1 & Hka1 & Hlx1 & Hout1 & Hsame1);
    [rewrite length_seq; cbn; lia|exact Hout0|exact Hstep1|].
  destruct s1 as [h1 c1']; cbn [heap] in Hh1; subst h1.
  rewrite bind_assoc. unfold bind at 1.
  destruct (align_channel _ _ _ _ 2 _) as [[e|[]] s2] eqn:Hstep2; [done|].
  destruct (align_channel_keeps_slots l r0 r2 locs _ _ outs1 2 R B kds h new1
              c1' s2
              Hl eq_refl Hr0 eq_refl Hr2 eq_refl eq_refl Hka1)
    as (new2 & xs2 & outs2 & Hh2 & Hka2 & Hlx2 & Hout2 & Hsame2);
    [rewrite Hlx1, length_seq; cbn; lia|exact Hout1|exact Hstep2|].
  rewrite !bind_ret. intros [= <- <-].
  exists outs2. split_and!.
  - unfold images_of. rewrite Hh2, lookup_new.
    change (S (S (S (length rs3)))) with (length locs). rewrite Hka2.
    by apply mapM_Some.
  - rewrite <- (Forall2_length _ _ _ Hout2), Hlx2, Hlx1, length_seq.
    by rewrite <- Hlen'.
  - intros k Hk1 Hk2. by rewrite Hsame2, Hsame1.
Qed.
End lengths.

(** * Keyboard shortcuts *)

Section keys.
Import Keyboard.
Variable update_main_display : MainWindow → MainWindow.
Implicit Types (u : ui).

(** X13. A key other than 1, 2, 3 and A is not handled: the handler
    answers [False] and touches nothing, in particular it neither accepts
    the event nor refreshes the display; the four keys are handled. *)
Theorem unhandled_keys_change_nothing u :
  (fst (handle_key_press update_main_display u) = false
   ↔ key (event u) ∉ [Key_1; Key_2; Key_3; Key_A]) ∧
  (fst (handle_key_press update_main_display u) = false →
   snd (handle_key_press update_main_display u) = u).
Proof.
  unfold handle_key_press. rewrite !not_elem_of_cons.
  repeat case_match; cbn [fst snd];
    repeat match goal with
           | Hk : (_ =? _)%Z = true |- _ => apply Z.eqb_eq in Hk
           | Hk : (_ =? _)%Z = false |- _ => apply Z.eqb_neq in Hk
           end;
    split; try done; split; try done; intros; split_and?;
    try done; try apply not_elem_of_nil; tauto.
Qed.

(** X14. A handled key accepts the event and refreshes the display once,
    after the window has been set: 1, 2 and 3 select channel 0, 1 and 2
    (the key code less that of 1) and leave the combined view; A turns
    the combined view on and keeps the selected channel. *)
Theorem handled_keys_set_the_view u :
  fst (handle_key_press update_main_display u) = true →
  let u' := snd (handle_key_press update_main_display u) in
  let w := {| show_combined := bool_decide (key (event u) = Key_A);
              current_channel :=
                if bool_decide (key (event u) = Key_A)
                then current_channel (main_window u)
                else (key (event u) - Key_1)%Z |} in
  accepted (event u') = true ∧ key (event u') = key (event u) ∧
  refreshed u' = refreshed u ++ [w] ∧
  main_window u' = update_main_display w ∧
  (0 ≤ current_channel w ≤ 2 ∨
   current_channel w = current_channel (main_window u))%Z.
Proof.
  unfold handle_key_press. destruct u as [w [k acc] rs]; cbn [event key].
  destruct (Z.eqb_spec k Key_1) as [->|H1];
    [|destruct (Z.eqb_spec k Key_2) as [->|H2];
      [|destruct (Z.eqb_spec k Key_3) as [->|H3];
        [|destruct (Z.eqb_spec k Key_A) as [->|HA]]]];
    cbn [fst snd]; try done; intros _; cbn;
    rewrite ?(bool_decide_eq_false_2 (_ = Key_A)) by done;
    rewrite ?(bool_decide_eq_true_2 (Key_A = Key_A)) by done;
    split_and!; try done; (left; by vm_compute) || by right.
Qed.
End keys.

(** * The crop rectangle *)

Section cropping.
Import Viewer.
Context `{Photo}.
Implicit Types (v : ImageViewer) (r : QRect).
Local Open Scope Z_scope.

Lemma QRect_xywh_valid x y w h :
  QRect_isValid (QRect_xywh x y w h) = true ↔ 0 < w ∧ 0 < h.
Proof.
  unfold QRect_isValid, QRect_xywh; cbn.
  rewrite andb_true_iff, !Z.leb_le. lia.
Qed.

Lemma QRect_valid_size r :
  QRect_isValid r = true ↔ 0 < QRect_width r ∧ 0 < QRect_height r.
Proof.
  unfold QRect_isValid, QRect_width, QRect_height.
  rewrite andb_true_iff, !Z.leb_le. lia.
Qed.


(** X16. Without a fixed ratio, a crop rectangle no larger than the image
    lies within the image after [constrain_crop_rect]; a larger one is
    set against the left or the top border. *)
Theorem constrain_keeps_inside v r :
  photo_truth = true →
  _crop_rect v = Some r → QRect_isValid r = true → _crop_ratio v = None →
  ∃ r',
    _crop_rect (constrain_crop_rect v) = Some r' ∧
    min_x ≤ QRect_left r' ∧ min_y ≤ QRect_top r' ∧
    (QRect_width r ≤ max_x - min_x →
     QRect_left r' + QRect_width r' ≤ max_x) ∧
    (QRect_height r ≤ max_y - min_y →
     QRect_top r' + QRect_height r' ≤ max_y) ∧
    (max_x - min_x < QRect_width r → QRect_left r' = min_x) ∧
    (max_y - min_y < QRect_height r → QRect_top r' = min_y).
Proof.
  intros Hp Hr Hv Hq. unfold constrain_crop_rect.
  rewrite Hr, Hv, Hp. cbn [andb _crop_ratio with_rect]. rewrite Hq.
  eexists. split; [reflexivity|].
  unfold QRect_width, QRect_height, QRect_left, QRect_top, QRect_xywh; cbn.
  lia.
Qed.

(** X17. Without a fixed ratio, constraining twice is constraining once,
    and a crop rectangle that lies within the image is left where it
    is. *)
Theorem constrain_is_idempotent v :
  _crop_ratio v = None →
  constrain_crop_rect (constrain_crop_rect v) = constrain_crop_rect v ∧
  ∀ r, _crop_rect v = Some r →
       min_x ≤ QRect_left r → QRect_left r + QRect_width r ≤ max_x →
       min_y ≤ QRect_top r → QRect_top r + QRect_height r ≤ max_y →
       constrain_crop_rect v = v.
Proof.
  intros Hq.
  assert (∀ r, _crop_rect v = Some r →
            min_x ≤ QRect_left r → QRect_left r + QRect_width r ≤ max_x →
            min_y ≤ QRect_top r → QRect_top r + QRect_height r ≤ max_y →
            constrain_crop_rect v = v) as Hfix.
  { intros r Hr ????. unfold constrain_crop_rect. rewrite Hr.
    destruct (QRect_isValid r && photo_truth); [|done].
    cbn [_crop_ratio with_rect]. rewrite Hq.
    destruct v as [m cr sv q cu up], r as [a b c d]; cbn in *.
    unfold with_rect, QRect_xywh, QRect_width, QRect_height,
      QRect_left, QRect_top in *; cbn in *. simplify_eq.
    do 2 f_equal. f_equal; lia. }
  split; [|exact Hfix].
  destruct (_crop_rect v) as [r|] eqn:Hr;
    [|by unfold constrain_crop_rect; rewrite !Hr].
  destruct (QRect_isValid r && photo_truth) eqn:Hv;
    [|by unfold constrain_crop_rect; rewrite !Hr, !Hv, Hr, Hv].
  assert (constrain_crop_rect v
          = with_rect (Some (QRect_xywh
              (Z.max min_x (Z.min (max_x - QRect_width r) (QRect_left r)))
              (Z.max min_y (Z.min (max_y - QRect_height r) (QRect_top r)))
              (QRect_width r) (QRect_height r))) v) as ->.
  { unfold constrain_crop_rect. rewrite Hr, Hv.
    cbn [_crop_ratio with_rect]. by rewrite Hq. }
  apply andb_true_iff in Hv as [Hv Hp].
  unfold constrain_crop_rect at 1. cbn [_crop_rect with_rect _crop_ratio].
  rewrite Hp, andb_true_r.
  match goal with |- context [QRect_isValid ?r'] =>
    assert (QRect_isValid r' = true) as ->
      by (apply QRect_xywh_valid, QRect_valid_size, Hv) end.
  rewrite Hq. unfold with_rect; cbn.
  unfold QRect_xywh, QRect_width, QRect_height, QRect_left, QRect_top; cbn.
  f_equal. f_equal. f_equal; lia.
Qed.

(** X18. Confirming leaves crop mode, drops the working rectangle and
    saves a copy of it; entering crop mode again brings the confirmed
    rectangle back. *)
Theorem confirmed_crop_comes_back v r :
  pixmap_truth = true →
  _crop_rect v = Some r → QRect_isValid r = true → _crop_ratio v = None →
  _crop_mode (confirm_crop v) = false ∧
  _crop_rect (confirm_crop v) = None ∧
  _saved_crop_rect (confirm_crop v) = Some r ∧
  _crop_mode (set_crop_mode true (confirm_crop v)) = true ∧
  _crop_rect (set_crop_mode true (confirm_crop v)) = Some r ∧
  _saved_crop_rect (set_crop_mode true (confirm_crop v)) = Some r.
Proof.
  intros Hp Hr Hv Hq. unfold confirm_crop, set_crop_mode.
  cbn [truth]. rewrite Hr; cbn [truth]. rewrite Hv, Hp. cbn. rewrite Hv. cbn.
  by rewrite Hq.
Qed.

(** X19. Cancelling drops the working rectangle, whatever
    [set_crop_rect] had made it, and keeps the confirmed one: entering
    crop mode again brings the confirmed rectangle back, not the
    cancelled edit. *)
Theorem cancelled_crop_leaves_no_trace v (edited : option QRect) r :
  pixmap_truth = true →
  _saved_crop_rect v = Some r → QRect_isValid r = true →
  _crop_ratio v = None →
  _crop_mode (cancel_crop (set_crop_rect edited v)) = false ∧
  _crop_rect (cancel_crop (set_crop_rect edited v)) = None ∧
  _saved_crop_rect (cancel_crop (set_crop_rect edited v)) = Some r ∧
  _crop_ratio (cancel_crop (set_crop_rect edited v)) = None ∧
  _crop_rect (set_crop_mode true (cancel_crop (set_crop_rect edited v)))
  = Some r.
Proof.
  intros Hp Hs Hv Hq. unfold cancel_crop, set_crop_rect, set_crop_mode.
  cbn. rewrite Hp, Hs. cbn. rewrite Hv, Hq. cbn. by rewrite Hq.
Qed.

(** X20. Entering crop mode with nothing saved and no ratio puts the crop
    rectangle in the middle of the image: the margins left and right of
    it differ by at most one pixel, and so do those above and below. *)
Theorem initial_crop_is_centred v :
  pixmap_truth = true →
  truth (_saved_crop_rect v) = false → _crop_ratio v = None →
  0 ≤ int_mul_08 pixmap_width ≤ pixmap_width →
  0 ≤ int_mul_08 pixmap_height ≤ pixmap_height →
  ∃ r,
    _crop_rect (set_crop_mode true v) = Some r ∧
    QRect_width r = int_mul_08 pixmap_width ∧
    QRect_height r = int_mul_08 pixmap_height ∧
    0 ≤ QRect_left r ≤ pixmap_width - (QRect_left r + QRect_width r) ∧
    pixmap_width - (QRect_left r + QRect_width r) ≤ QRect_left r + 1 ∧
    0 ≤ QRect_top r ≤ pixmap_height - (QRect_top r + QRect_height r) ∧
    pixmap_height - (QRect_top r + QRect_height r) ≤ QRect_top r + 1.
Proof.
  intros Hp Hs Hq Hw Hh. unfold set_crop_mode. cbn. rewrite Hp, Hs. cbn.
  rewrite Hq. cbn. eexists. split; [reflexivity|].
  unfold QRect_width, QRect_height, QRect_left, QRect_top, QRect_xywh; cbn.
  pose proof (Z.div_mod (pixmap_width - int_mul_08 pixmap_width) 2).
  pose proof (Z.mod_pos_bound (pixmap_width - int_mul_08 pixmap_width) 2).
  pose proof (Z.div_mod (pixmap_height - int_mul_08 pixmap_height) 2).
  pose proof (Z.mod_pos_bound (pixmap_height - int_mul_08 pixmap_height) 2).
  lia.
Qed.
End cropping.

(** * The further properties on sample runs *)

Section more_runs.
Import Pixel Lists.
Local Existing Instance cv2.

Lemma run_all_textured :
  run textured textured textured = (inr 7, after textured textured textured).
Proof. reflexivity. Qed.


Lemma green_before_blue_witness :
  (∀ j k cj ck,
     new_calls (store textured textured textured)
               (after textured textured textured) !! j = Some cj →
     call_channel cj = Some 1 →
     new_calls (store textured textured textured)
               (after textured textured textured) !! k = Some ck →
     call_channel ck = Some 2 →
     j < k) ∧
  ((∃ c, c ∈ new_calls (store textured textured textured)
                       (after textured textured textured) ∧
         call_channel c = Some 2) →
   (∀ c, c ∈ new_calls (store textured textured textured)
                       (after textured textured textured) →
         call_channel c ≠ Some 1) ∨
   (∃ M dsize, CallWarp 1 textured M dsize
               ∈ new_calls (store textured textured textured)
                           (after textured textured textured))).
Proof.
  exact (green_before_blue _ _ _ _ _ _ _
           (images_of_store _ _ _) run_all_textured).
Defined.

Lemma resample_applies_the_estimate_witness :
  ∃ k' from to,
    5 = S k' ∧
    new_calls (store textured featureless textured)
              (after textured featureless textured) !! k'
    = Some (CallEstimate 2 from to (Some (0, 0)%Z)) ∧
    estimate from to = Some (0, 0)%Z.
Proof.
  refine (proj2 (proj2 (proj2
            (resample_applies_the_estimate _ _ _ _ _ _ _ 5 2 textured
               (0, 0)%Z (10, 5)
               (images_of_store _ _ _) run_passed_through _)))).
  reflexivity.
Defined.

Lemma estimate_maps_channel_to_reference_witness :
  ∃ X k' q t ms,
    4 = S k' ∧ [textured; featureless; textured] !! 2 = Some X ∧
    new_calls (store textured featureless textured)
              (after textured featureless textured) !! k'
    = Some (CallMatch 2 q t ms) ∧
    Some (0, 0)%Z = estimate (points textured) (points textured) ∧
    length (points textured) = length ms ∧
    length (points textured) = length ms ∧
    ∀ n m, ms !! n = Some m →
      ∃ kx kr,
        fst (detect 1000 X) !! trainIdx m = Some kx ∧
        fst (detect 1000 textured) !! queryIdx m = Some kr ∧
        points textured !! n = Some (prod_map id id (pt kx)) ∧
        points textured !! n = Some (prod_map id id (pt kr)).
Proof.
  refine (estimate_maps_channel_to_reference _ _ _ _ _ _ _ 4 2
            (points textured) (points textured) (Some (0, 0)%Z)
            (images_of_store _ _ _) run_passed_through _).
  reflexivity.
Defined.

Lemma images_of_thrice :
  images_of thrice 1 = Some [textured; textured; textured].
Proof. reflexivity. Qed.

Lemma run_thrice : align_images 1 thrice = (inr 5, snd (align_images 1 thrice)).
Proof. reflexivity. Qed.

Lemma result_arrays_are_distinct_witness :
  ∃ x0 x1 x2,
    heap (snd (align_images 1 thrice)) !! 5 = Some (OList [x0; x1; x2]) ∧
    NoDup [x0; x1; x2] ∧ (5 ∉ [x0; x1; x2]) ∧ 5 ≠ 1.
Proof.
  exact (result_arrays_are_distinct _ _ _ _ _ _ _ images_of_thrice run_thrice).
Defined.





Lemma empty_list_raises_index_error_witness :
  ∃ s', align_images 0 none
        = (inl (Raise IndexError "list index out of range"), s') ∧
        new_calls none s' = [].
Proof.
  refine (empty_list_raises_index_error _ _ _). reflexivity.
Defined.



Lemma run_four : align_images 4 four = (inr 9, snd (align_images 4 four)).
Proof. reflexivity. Qed.

Lemma further_images_are_copied_witness :
  ∃ outs,
    images_of (snd (align_images 4 four)) 9 = Some outs ∧
    length outs = 4 ∧
    ∀ k, k ≠ 1 → k ≠ 2 →
         outs !! k = [textured; featureless; textured; sparse] !! k.
Proof.
  refine (further_images_are_copied four 4
            [textured; featureless; textured; sparse] 9 _ _ _ run_four).
  - reflexivity.
  - cbn. lia.
Defined.
End more_runs.

Section more_views.
Import Keyboard Viewer.
Local Existing Instance photo.
Local Open Scope Z_scope.

Lemma handled_keys_set_the_view_witness :
  let u := UI {| show_combined := true; current_channel := 0 |}
              {| key := Key_3; accepted := false |} [] in
  let u' := snd (handle_key_press id u) in
  accepted (event u') = true ∧ key (event u') = Key_3 ∧
  refreshed u' = [{| show_combined := false; current_channel := 2 |}] ∧
  main_window u' = {| show_combined := false; current_channel := 2 |}.
Proof.
  destruct (handled_keys_set_the_view id
              (UI {| show_combined := true; current_channel := 0 |}
                  {| key := Key_3; accepted := false |} []) eq_refl)
    as (Ha & Hk & Hr & Hw & _).
  exact (conj Ha (conj Hk (conj Hr Hw))).
Defined.


Lemma constrain_keeps_inside_witness :
  ∃ r',
    _crop_rect (constrain_crop_rect dragged) = Some r' ∧
    0 ≤ QRect_left r' ∧ 0 ≤ QRect_top r' ∧
    QRect_left r' + QRect_width r' ≤ 100 ∧
    QRect_top r' + QRect_height r' ≤ 80.
Proof.
  destruct (@constrain_keeps_inside photo dragged (QRect_xywh 90 (-5) 30 20)
              eq_refl eq_refl eq_refl eq_refl)
    as (r' & Hr & Hl & Ht & Hw & Hh & _).
  exists r'. split_and!; [done..| |].
  - apply Hw. by vm_compute.
  - apply Hh. by vm_compute.
Defined.

Lemma constrain_is_idempotent_witness :
  constrain_crop_rect (constrain_crop_rect dragged)
  = constrain_crop_rect dragged.
Proof. exact (proj1 (@constrain_is_idempotent photo dragged eq_refl)). Defined.

Lemma confirmed_crop_comes_back_witness :
  _crop_rect (confirm_crop dragged) = None ∧
  _crop_rect (set_crop_mode true (confirm_crop dragged))
  = Some (QRect_xywh 90 (-5) 30 20).
Proof.
  destruct (@confirmed_crop_comes_back photo dragged (QRect_xywh 90 (-5) 30 20)
              eq_refl eq_refl eq_refl eq_refl)
    as (_ & Hnone & _ & _ & Hback & _).
  exact (conj Hnone Hback).
Defined.

Lemma cancelled_crop_leaves_no_trace_witness :
  _crop_rect (cancel_crop (set_crop_rect (Some (QRect_xywh 0 0 10 10))
                             (confirm_crop dragged))) = None ∧
  _crop_rect (set_crop_mode true
                (cancel_crop (set_crop_rect (Some (QRect_xywh 0 0 10 10))
                                (confirm_crop dragged))))
  = Some (QRect_xywh 90 (-5) 30 20).
Proof.
  destruct (@cancelled_crop_leaves_no_trace photo (confirm_crop dragged)
              (Some (QRect_xywh 0 0 10 10)) (QRect_xywh 90 (-5) 30 20)
              eq_refl eq_refl eq_refl eq_refl)
    as (_ & Hnone & _ & _ & Hback).
  exact (conj Hnone Hback).
Defined.

Lemma initial_crop_is_centred_witness :
  ∃ r,
    _crop_rect (set_crop_mode true fresh_viewer) = Some r ∧
    QRect_width r = 80 ∧ QRect_height r = 64 ∧
    QRect_left r = 10 ∧ QRect_top r = 8.
Proof.
  destruct (@initial_crop_is_centred photo fresh_viewer eq_refl eq_refl eq_refl)
    as (r & Hr & Hw & Hh & Hl & Hl' & Ht & Ht').
  - by vm_compute.
  - by vm_compute.
  - exists r. change (int_mul_08 pixmap_width) with 80 in *.
    change (int_mul_08 pixmap_height) with 64 in *.
    change pixmap_width with 100 in *. change pixmap_height with 80 in *.
    split_and!; [done..| |]; lia.
Defined.
End more_views.
